(** * The interview chat route (backend/src/routes/interview.ts)

    A shallow embedding of the Hono route module that drives the mock
    interview: the viseme generator [generateLipSync], the process-wide
    [conversationHistory] map, and the handlers of POST /chat, GET /models
    and POST /reset.

    Conventions of the embedding.
    - A JavaScript string is the list of its UTF-16 code units ([list N]).
    - A Number that carries a time is a rational ([Q]). An arithmetic
      operation gives its exact result rounded by a function [fl], a
      variable of the section that holds the handlers: the identity for
      ideal arithmetic, or any function that behaves as rounding to
      binary64 does on the values the clock takes.
    - The services of the runtime the handler calls ([Math.random], [fetch],
      [JSON.parse]) are variables of that section too, so every theorem
      there holds whatever they answer.
    - A request is handled from start to end before the next one starts;
      interleavings of concurrent requests at the [await] are not modelled. *)

From Stdlib Require Import ZArith NArith QArith Qround Qabs Lqa Lia String Ascii List DecimalString.
From stdpp Require Import base option list countable gmap.

Close Scope Q_scope.
Local Open Scope N_scope.

(** ** JavaScript strings *)

Abbreviation jsstring := (list N).

(** The code units of an ASCII literal. *)
Fixpoint of_string (s : string) : jsstring :=
  match s with
  | EmptyString => []
  | String a rest => N_of_ascii a :: of_string rest
  end.
Arguments of_string s%_string : simpl never.

(** The one-character string made of a double quote (U+0022). *)
Definition dquote : jsstring := [34].

(** A string is truthy when it is not empty. *)
Definition truthy_string (s : jsstring) : bool :=
  match s with [] => false | _ => true end.

(** [x || y] where [x] is a string or undefined and [y] a string. *)
Definition or_string (x : option jsstring) (y : jsstring) : jsstring :=
  match x with
  | Some s => if truthy_string s then s else y
  | None => y
  end.

(** WhiteSpace and LineTerminator code points of ECMAScript, the ones
    [String.prototype.trim] strips. *)
Definition is_trim_space (c : N) : bool :=
  (c =? 9) || (c =? 10) || (c =? 11) || (c =? 12) || (c =? 13) || (c =? 32)
  || (c =? 160) || (c =? 5760) || ((8192 <=? c) && (c <=? 8202))
  || (c =? 8232) || (c =? 8233) || (c =? 8239) || (c =? 8287)
  || (c =? 12288) || (c =? 65279).

Fixpoint trim_start (s : jsstring) : jsstring :=
  match s with
  | c :: rest => if is_trim_space c then trim_start rest else s
  | [] => []
  end.

(** [s.trim()] *)
Definition trim (s : jsstring) : jsstring :=
  rev (trim_start (rev (trim_start s))).

(** [s.split(sep)] for a one-unit separator: the pieces between the
    separators, always at least one piece. *)
Fixpoint split (sep : N) (s : jsstring) : list jsstring :=
  match s with
  | [] => [[]]
  | c :: rest =>
      if c =? sep then [] :: split sep rest
      else match split sep rest with
           | piece :: pieces => (c :: piece) :: pieces
           | [] => [[c]]
           end
  end.

(** Decimal digits of a natural number, as [String(n)] prints an integer. *)
Definition decimal (n : N) : jsstring :=
  of_string (NilEmpty.string_of_uint (N.to_uint n)).

(** ** Constants of the module *)

Definition DEFAULT_MODEL : jsstring := of_string "llama-3.3-70b-versatile".

Definition INTERVIEWER_SYSTEM_PROMPT : jsstring :=
  of_string "You are an expert technical interviewer named "
  ++ dquote
  ++ of_string "Optimus"
  ++ dquote
  ++ of_string " for a learning platform. Your role is to conduct mock interviews to help students practice.

RULES:
1. Be professional but friendly and encouraging
2. Ask one question at a time
3. After the student answers, provide brief constructive feedback then ask a follow-up or new question
4. Cover topics relevant to software development: algorithms, system design, behavioral, coding concepts
5. Adapt difficulty based on the student's responses
6. If the student says "
  ++ dquote
  ++ of_string "hello"
  ++ dquote
  ++ of_string " or greets you, introduce yourself and ask what type of interview they'd like (technical, behavioral, or general)
7. Keep responses concise (2-3 sentences max for feedback, then the question)

RESPONSE FORMAT:
You must respond with ONLY valid JSON in this exact format, no markdown, no code blocks:
{"
  ++ dquote
  ++ of_string "text"
  ++ dquote
  ++ of_string ": "
  ++ dquote
  ++ of_string "your response text here"
  ++ dquote
  ++ of_string ", "
  ++ dquote
  ++ of_string "facialExpression"
  ++ dquote
  ++ of_string ": "
  ++ dquote
  ++ of_string "smile"
  ++ dquote
  ++ of_string ", "
  ++ dquote
  ++ of_string "animation"
  ++ dquote
  ++ of_string ": "
  ++ dquote
  ++ of_string "Talking_1"
  ++ dquote
  ++ of_string "}

Available facialExpressions: "
  ++ dquote
  ++ of_string "smile"
  ++ dquote
  ++ of_string ", "
  ++ dquote
  ++ of_string "default"
  ++ dquote
  ++ of_string ", "
  ++ dquote
  ++ of_string "funnyFace"
  ++ dquote
  ++ of_string ", "
  ++ dquote
  ++ of_string "sad"
  ++ dquote
  ++ of_string "
Available animations: "
  ++ dquote
  ++ of_string "Talking_0"
  ++ dquote
  ++ of_string ", "
  ++ dquote
  ++ of_string "Talking_1"
  ++ dquote
  ++ of_string ", "
  ++ dquote
  ++ of_string "Talking_2"
  ++ dquote
  ++ of_string ", "
  ++ dquote
  ++ of_string "Idle"
  ++ dquote
  ++ of_string "

Use "
  ++ dquote
  ++ of_string "smile"
  ++ dquote
  ++ of_string " for encouragement, "
  ++ dquote
  ++ of_string "default"
  ++ dquote
  ++ of_string " for questions, "
  ++ dquote
  ++ of_string "sad"
  ++ dquote
  ++ of_string " for when the student struggles.".

(** The stand-in pushed when the request carries no usable message. *)
Definition GREETING : jsstring :=
  of_string "Hi, I'd like to start a mock interview session.".

Definition NOT_CONFIGURED_TEXT : jsstring :=
  of_string "AI interview is not configured. Please add GROQ_API_KEY to your environment variables.".

Definition TROUBLE_TEXT : jsstring :=
  of_string "I'm having trouble connecting right now. Please try again in a moment.".

(** ** Data model *)

(** [role: "user" | "assistant" | "system"] *)
Inductive Role := system | user | assistant.

#[global] Instance Role_eq_dec : EqDecision Role.
Proof. solve_decision. Defined.

(** One entry of a conversation history. *)
Record turn := Turn { role : Role; content : jsstring }.

#[global] Instance turn_eq_dec : EqDecision turn.
Proof. solve_decision. Defined.

Definition system_turn : turn :=
  {| role := system; content := INTERVIEWER_SYSTEM_PROMPT |}.

(** [InterviewEnv]: a binding that is not configured reads as undefined. *)
Record InterviewEnv := {
  GROQ_API_KEY : option jsstring;
  INTERVIEW_MODEL : option jsstring
}.

(** JSON values, as [JSON.parse] builds them. An object keeps its members in
    the order of the text. *)
#[local] Unset Elimination Schemes.
Inductive json :=
  | JNull
  | JBool (b : bool)
  | JNumber (q : Q)
  | JString (s : jsstring)
  | JArray (items : list json)
  | JObject (members : list (jsstring * json)).
#[local] Set Elimination Schemes.

(** What [await c.req.json().catch(() => ({}))] yields, as far as the
    handlers read it. The JSON text [null] gives null. Any other body gives
    the two properties read: [message], a JSON value of any kind or
    undefined, and [sessionId], taken to be a string or undefined, the type
    the handler gives it (under [||] a falsy value of another kind reads as
    undefined does). A body that is not JSON gives the empty object; so
    does, for these two properties, a JSON value other than null that is
    not an object. *)
Inductive body :=
  | BodyNull
  | BodyObject (message : option json) (sessionId : option jsstring).

Record request := {
  req_body : body;
  (** [c.req.query("model")] *)
  query_model : option jsstring
}.

(** The body of the request sent to the chat-completion endpoint, with the
    Authorization header. *)
Record fetch_request := {
  authorization : jsstring;
  model : jsstring;
  messages : list turn;
  temperature : Q;
  max_tokens : N;
  response_format : jsstring
}.

(** [choices: Array<{ message: { content: string } }>]; the handler reads it
    with optional chaining, so a missing message or content is allowed. *)
Record choice := { choice_message : option (option jsstring) }.

(** The payload of a completion, at its declared type. *)
Record completion := {
  choices : list choice;
  completion_model : jsstring
}.

(** Values the handler can find in its [catch] clause. *)
Inductive exn :=
  | Error (message : jsstring)      (* [new Error(message)] *)
  | TypeError                       (* raised by the engine *)
  | SyntaxError                     (* raised by the engine *)
  | Rejection (reason : jsstring).  (* [fetch] rejected *)

(** What [await fetch(...)] does: it rejects, or it resolves to a response
    with a status and a body; [payload] is what [response.json()] reads
    from the body, [None] when the body is not JSON. *)
Inductive fetch_outcome :=
  | Rejected (e : exn)
  | Response (status : N) (payload : option completion).

(** [response.ok] *)
Definition ok (status : N) : bool := (200 <=? status) && (status <=? 299).

(** One cue of the viseme track. [visemes[i]] is undefined out of range. *)
Record cue := { start : Q; end_ : Q; value : option jsstring }.

(** What [generateLipSync] returns: [{ mouthCues: cues }]. *)
Record viseme_track := { mouthCues : list cue }.

(** One element of [messages] in the reply. *)
Record reply := {
  text : jsstring;
  audio : jsstring;
  lipsync : viseme_track;
  facialExpression : json;
  animation : json
}.

(** What [c.json(...)] returns: the status and the fields of the object.
    [resp_error] holds the exception that [error: String(error)] renders;
    for [Error message] the rendering is "Error: " followed by the
    message. *)
Record response := {
  resp_status : N;
  resp_messages : list reply;
  resp_model : option jsstring;
  resp_error : option exn
}.

(** The state of the worker: the history map, how many times [Math.random]
    was called, and the requests sent to the provider so far. *)
Record world := {
  conversationHistory : gmap jsstring (list turn);
  random_calls : nat;
  fetch_calls : list fetch_request
}.

Definition initial_world : world :=
  {| conversationHistory := ∅; random_calls := 0; fetch_calls := [] |}.

Definition with_history (registry : gmap jsstring (list turn)) (w : world) : world :=
  {| conversationHistory := registry;
     random_calls := random_calls w;
     fetch_calls := fetch_calls w |}.

Definition with_random_calls (n : nat) (w : world) : world :=
  {| conversationHistory := conversationHistory w;
     random_calls := n;
     fetch_calls := fetch_calls w |}.

Definition with_fetch_calls (calls : list fetch_request) (w : world) : world :=
  {| conversationHistory := conversationHistory w;
     random_calls := random_calls w;
     fetch_calls := calls |}.

(** ** Dynamic reads of a JSON value *)

(** A Number is falsy when it is zero; a decimal literal denotes the zero
    double exactly when its value rounds to zero, that is when its magnitude
    is at most 2^-1075. *)
Definition number_truthy (q : Q) : bool :=
  negb (Qle_bool (Qabs q) (1 # (2 ^ 1075))).

(** ToBoolean on a JSON value. *)
Definition truthy (v : json) : bool :=
  match v with
  | JNull => false
  | JBool b => b
  | JNumber q => number_truthy q
  | JString s => truthy_string s
  | JArray _ | JObject _ => true
  end.

(** The member [key] of an object: the last one of that name in the text. *)
Fixpoint lookup_member (key : jsstring) (members : list (jsstring * json)) : option json :=
  match members with
  | [] => None
  | (k, v) :: rest =>
      match lookup_member key rest with
      | Some later => Some later
      | None => if decide (k = key) then Some v else None
      end
  end.

(** [v.key] for a property that no prototype defines: TypeError on null,
    undefined ([None]) on a value that is not an object or lacks the member. *)
Definition get_property (key : jsstring) (v : json) : exn + option json :=
  match v with
  | JNull => inl TypeError
  | JObject members => inr (lookup_member key members)
  | _ => inr None
  end.

(** [x || d] where [x] is a JSON value or undefined. *)
Definition or_default (x : option json) (d : json) : json :=
  match x with
  | Some v => if truthy v then v else d
  | None => d
  end.

(** ** A reference [JSON.parse]

    The grammar of ECMA-404 over code units, used where a theorem of the
    handler is run on a concrete reply. Numbers are read at their exact
    decimal value. *)

Definition is_json_space (c : N) : bool :=
  (c =? 32) || (c =? 9) || (c =? 10) || (c =? 13).

Fixpoint skip_space (s : jsstring) : jsstring :=
  match s with
  | c :: rest => if is_json_space c then skip_space rest else s
  | [] => []
  end.

(** [expect lit s] strips the literal [lit] from the front of [s]. *)
Fixpoint expect (lit s : jsstring) : option jsstring :=
  match lit, s with
  | [], _ => Some s
  | l :: lit', c :: s' => if c =? l then expect lit' s' else None
  | _ :: _, [] => None
  end.

Definition hex_digit (c : N) : option N :=
  if (48 <=? c) && (c <=? 57) then Some (c - 48)
  else if (97 <=? c) && (c <=? 102) then Some (c - 87)
  else if (65 <=? c) && (c <=? 70) then Some (c - 55)
  else None.

(** The characters of a string literal after its opening quote, up to the
    closing one; [acc] holds the code units read so far, last one first. *)
Fixpoint parse_string_body (acc s : jsstring) : option (jsstring * jsstring) :=
  match s with
  | [] => None
  | 34 :: rest => Some (rev acc, rest)
  | 92 :: esc :: rest =>
      match esc, rest with
      | 34, _ | 92, _ | 47, _ => parse_string_body (esc :: acc) rest
      | 98, _ => parse_string_body (8 :: acc) rest
      | 102, _ => parse_string_body (12 :: acc) rest
      | 110, _ => parse_string_body (10 :: acc) rest
      | 114, _ => parse_string_body (13 :: acc) rest
      | 116, _ => parse_string_body (9 :: acc) rest
      | 117, a :: b :: c :: d :: rest' =>
          match hex_digit a, hex_digit b, hex_digit c, hex_digit d with
          | Some a, Some b, Some c, Some d =>
              parse_string_body ((((a * 16 + b) * 16 + c) * 16 + d) :: acc) rest'
          | _, _, _, _ => None
          end
      | _, _ => None
      end
  | c :: rest => if c <? 32 then None else parse_string_body (c :: acc) rest
  end.

Definition is_digit (c : N) : bool := (48 <=? c) && (c <=? 57).

(** Leading decimal digits of [s]: their value on top of [acc], how many
    there are, and what follows. *)
Fixpoint parse_digits (acc : Z) (count : nat) (s : jsstring) : Z * nat * jsstring :=
  match s with
  | c :: rest =>
      if is_digit c then parse_digits (acc * 10 + Z.of_N (c - 48))%Z (S count) rest
      else (acc, count, s)
  | [] => (acc, count, s)
  end.

(** The rational [m * 10^e]. *)
Definition scale10 (m e : Z) : Q :=
  if (0 <=? e)%Z then inject_Z (m * 10 ^ e)
  else Qmake m (Z.to_pos (10 ^ (- e))).

(** A number literal: [-? int frac? exp?]. *)
Definition parse_number (s : jsstring) : option (json * jsstring) :=
  let '(negative, s1) :=
    match s with 45 :: r => (true, r) | _ => (false, s) end in
  let '(int_part, int_len, s2) := parse_digits 0 0 s1 in
  let leading_zero := match s1 with 48 :: _ => true | _ => false end in
  if (int_len =? 0)%nat || (leading_zero && negb (int_len =? 1)%nat) then None
  else
    let frac :=
      match s2 with
      | 46 :: r =>
          let '(m, n, r') := parse_digits int_part 0 r in
          if (n =? 0)%nat then None else Some (m, n, r')
      | _ => Some (int_part, 0%nat, s2)
      end in
    match frac with
    | None => None
    | Some (mantissa, frac_len, s3) =>
        let exponent :=
          match s3 with
          | e :: r =>
              if (e =? 101) || (e =? 69) then
                let '(exp_negative, r1) :=
                  match r with
                  | 45 :: r' => (true, r')
                  | 43 :: r' => (false, r')
                  | _ => (false, r)
                  end in
                let '(x, n, r2) := parse_digits 0 0 r1 in
                if (n =? 0)%nat then None
                else Some (if exp_negative then (- x)%Z else x, r2)
              else Some (0%Z, s3)
          | [] => Some (0%Z, s3)
          end in
        match exponent with
        | None => None
        | Some (x, s4) =>
            let m := if negative then (- mantissa)%Z else mantissa in
            Some (JNumber (scale10 m (x - Z.of_nat frac_len)), s4)
        end
    end.

(** A value, the elements of an array after its first and the members of an
    object, by recursion on [fuel]. *)
Fixpoint parse_value (fuel : nat) (s : jsstring) : option (json * jsstring) :=
  match fuel with
  | O => None
  | S fuel' =>
      match s with
      | 110 :: _ => r ← expect (of_string "null") s; Some (JNull, r)
      | 116 :: _ => r ← expect (of_string "true") s; Some (JBool true, r)
      | 102 :: _ => r ← expect (of_string "false") s; Some (JBool false, r)
      | 34 :: rest =>
          '(str, r) ← parse_string_body [] rest; Some (JString str, r)
      | 91 :: rest =>
          match skip_space rest with
          | 93 :: r => Some (JArray [], r)
          | r => parse_elements fuel' [] r
          end
      | 123 :: rest =>
          match skip_space rest with
          | 125 :: r => Some (JObject [], r)
          | r => parse_members fuel' [] r
          end
      | _ => parse_number s
      end
  end
with parse_elements (fuel : nat) (acc : list json) (s : jsstring) : option (json * jsstring) :=
  match fuel with
  | O => None
  | S fuel' =>
      '(v, r) ← parse_value fuel' (skip_space s);
      match skip_space r with
      | 44 :: r' => parse_elements fuel' (v :: acc) r'
      | 93 :: r' => Some (JArray (rev (v :: acc)), r')
      | _ => None
      end
  end
with parse_members (fuel : nat) (acc : list (jsstring * json)) (s : jsstring) : option (json * jsstring) :=
  match fuel with
  | O => None
  | S fuel' =>
      match skip_space s with
      | 34 :: rest =>
          '(key, r) ← parse_string_body [] rest;
          match skip_space r with
          | 58 :: r1 =>
              '(v, r2) ← parse_value fuel' (skip_space r1);
              match skip_space r2 with
              | 44 :: r3 => parse_members fuel' ((key, v) :: acc) r3
              | 125 :: r3 => Some (JObject (rev ((key, v) :: acc)), r3)
              | _ => None
              end
          | _ => None
          end
      | _ => None
      end
  end.

(** [JSON.parse(s)]: the value, or [None] where it throws a SyntaxError. *)
Definition json_parse (s : jsstring) : option json :=
  '(v, r) ← parse_value (2 * length s + 2) (skip_space s);
  match skip_space r with
  | [] => Some v
  | _ => None
  end.

(** ** Effects

    A computation reads and writes the [world] and either returns a value or
    throws; what it wrote before it threw stays written, as in JavaScript. *)

Definition M (A : Type) : Type := world → (exn + A) * world.

#[global] Instance M_ret : MRet M := λ A a w, (inr a, w).

#[global] Instance M_bind : MBind M := λ A B k m w,
  match m w with
  | (inr a, w') => k a w'
  | (inl e, w') => (inl e, w')
  end.

Definition throw {A} (e : exn) : M A := λ w, (inl e, w).

(** [if (condition) { body }] *)
Definition when (condition : bool) (body : M unit) : M unit :=
  if condition then body else mret ().

(** A step that touches no state: its value, or what it throws. *)
Definition lift {A} (r : exn + A) : M A := λ w, (r, w).

(** [try { body } catch (error) { handler(error) }] *)
Definition try_catch {A} (body : M A) (handler : exn → M A) : M A := λ w,
  match body w with
  | (inl e, w') => handler e w'
  | returned => returned
  end.

(** [conversationHistory.has(sessionId)] *)
Definition history_has (sessionId : jsstring) : M bool := λ w,
  (inr (bool_decide (is_Some (conversationHistory w !! sessionId))), w).

(** [conversationHistory.set(sessionId, transcript)] *)
Definition history_set (sessionId : jsstring) (transcript : list turn) : M unit := λ w,
  (inr (), with_history (<[sessionId := transcript]> (conversationHistory w)) w).

(** [conversationHistory.delete(sessionId)] *)
Definition history_delete (sessionId : jsstring) : M unit := λ w,
  (inr (), with_history (delete sessionId (conversationHistory w)) w).

(** [history.push(t)] where [history] is the array that
    [conversationHistory.get(sessionId)] returned: the push changes the array
    the map holds. On undefined it is a TypeError. *)
Definition history_push (sessionId : jsstring) (t : turn) : M unit := λ w,
  match conversationHistory w !! sessionId with
  | Some transcript => history_set sessionId (transcript ++ [t]) w
  | None => (inl TypeError, w)
  end.

(** The present contents of that array. *)
Definition history_read (sessionId : jsstring) : M (list turn) := λ w,
  match conversationHistory w !! sessionId with
  | Some transcript => (inr transcript, w)
  | None => (inl TypeError, w)
  end.

(** ** Pure steps of the chat handler *)

(** The user turn pushed for [body.message]. *)
Definition user_turn (userMessage : option jsstring) : turn :=
  match userMessage with
  | Some m =>
      if truthy_string m && negb (bool_decide (trim m = []))
      then {| role := user; content := m |}
      else {| role := user; content := GREETING |}
  | None => {| role := user; content := GREETING |}
  end.

(** The same for [body.message] as the request gives it, a JSON value of
    any kind or undefined. In [userMessage && userMessage.trim() !== ""] a
    falsy value takes the [else] branch, and on a truthy value that is not a
    string [userMessage.trim] is undefined, so that the call throws a
    TypeError. *)
Definition message_turn (userMessage : option json) : exn + turn :=
  match userMessage with
  | None => inr (user_turn None)
  | Some (JString m) => inr (user_turn (Some m))
  | Some v => if truthy v then inl TypeError else inr (user_turn None)
  end.

(** [queryModel || c.env.INTERVIEW_MODEL || DEFAULT_MODEL] *)
Definition select_model (queryModel configured : option jsstring) : jsstring :=
  or_string queryModel (or_string configured DEFAULT_MODEL).

(** [data.choices[0]?.message?.content || ""] *)
Definition first_content (data : completion) : jsstring :=
  or_string (c ← choices data !! 0%nat; m ← choice_message c; m) [].

(** The object that stands for a reply that is not JSON. *)
Definition wrap_raw (aiContent : jsstring) : json :=
  JObject [ (of_string "text", JString aiContent);
            (of_string "facialExpression", JString (of_string "default"));
            (of_string "animation", JString (of_string "Talking_1")) ].

(** What the handler sends to the provider. *)
Definition completion_request (apiKey model : jsstring) (history : list turn) : fetch_request :=
  {| authorization := of_string "Bearer " ++ apiKey;
     model := model;
     messages := history;
     temperature := 7 # 10;
     max_tokens := 300;
     response_format := of_string "json_object" |}.

(** The history kept once it is longer than 21 turns:
    [[history[0], ...history.slice(-20)]]. *)
Definition truncated (history : list turn) : list turn :=
  take 1 history ++ drop (length history - 20) history.

Definition visemes : list jsstring :=
  [ of_string "A"; of_string "B"; of_string "C"; of_string "D"; of_string "E";
    of_string "F"; of_string "G"; of_string "H"; of_string "X" ].

(** [Math.round(x)]: the nearest integer, a tie going up. *)
Definition Math_round (x : Q) : Z := Qfloor (x + (1 # 2)).

(** Arithmetic on Numbers: every operation gives the exact result, rounded
    to a Number by a function [fl] that the handlers take as a variable.
    [exact] is the rounding of ideal arithmetic, which changes nothing. It
    is not the arithmetic of the engine: it stands for [fl] where a theorem
    is run on a sample input, and it meets the conditions the theorems on
    the viseme track put on a rounding. *)
Definition exact : Q → Q := λ x, x.

(** A count as a rational. *)
Definition nat_Q (n : nat) : Q := inject_Z (Z.of_nat n).

(** [array[i]] for an integer [i]. *)
Definition element {A} (l : list A) (i : Z) : option A :=
  if (i <? 0)%Z then None else l !! Z.to_nat i.

(** The loop state of [generateLipSync], with the count of draws made. *)
Record lip_state := {
  cues : list cue;
  currentTime : Q;
  draws : nat
}.

(** ** Requests and what is observed of the registry *)

(** A request the worker receives. *)
Inductive event :=
  | ChatRequest (req : request)
  | ResetRequest (b : body).

(** The transcript the registry holds for a session id. *)
Definition transcript (w : world) (sessionId : jsstring) : option (list turn) :=
  conversationHistory w !! sessionId.

(** Who speaks after whom. *)
Definition next_role (r : Role) : Role :=
  match r with user => assistant | _ => user end.

(** The roles after the first turn alternate user, assistant, user, ... *)
Fixpoint alternates_from (expected : Role) (turns : list turn) : bool :=
  match turns with
  | [] => true
  | t :: rest =>
      bool_decide (role t = expected) && alternates_from (next_role expected) rest
  end.

Definition alternates (history : list turn) : bool :=
  alternates_from user (drop 1 history).

(** The history after the check [history.length > 21]. *)
Definition kept (history : list turn) : list turn :=
  if (21 <? length history)%nat then truncated history else history.

(** The content of the assistant turn an answer of the provider leads to:
    none when the call was rejected, the status was not a success or the
    body was not JSON. *)
Definition answer_content (outcome : fetch_outcome) : option jsstring :=
  match outcome with
  | Response status (Some data) =>
      if ok status then Some (first_content data) else None
  | _ => None
  end.

(** A transcript made of the first turn and whole exchanges, within the
    bound the truncation aims at. *)
Definition paired (history : list turn) : Prop :=
  alternates history = true
  ∧ (∃ k, length history = 2 * k + 1)%nat
  ∧ (length history ≤ 21)%nat.

(** The history a chat request starts from: the one the registry holds, or
    the fresh one it creates. *)
Definition prior (w : world) (sessionId : jsstring) : list turn :=
  default [system_turn] (conversationHistory w !! sessionId).

(** Two worlds with the same registry and the same calls to the provider. *)
Definition same_store (w w' : world) : Prop :=
  conversationHistory w' = conversationHistory w ∧ fetch_calls w' = fetch_calls w.

(** Every transcript of the registry starts with the system turn. *)
Definition system_first (w : world) : Prop :=
  ∀ sid h, conversationHistory w !! sid = Some h → head h = Some system_turn.

(** Every transcript of the registry is paired. *)
Definition all_paired (w : world) : Prop :=
  ∀ sid h, conversationHistory w !! sid = Some h → paired h.

(** Chat requests of one session that get as far as the push of the user
    turn: the body can be read, and its message is a string or falsy. *)
Definition on_session (sid : jsstring) (req : request) : Prop :=
  ∃ message sessionId asked,
    req_body req = BodyObject message sessionId
    ∧ or_string sessionId (of_string "default") = sid
    ∧ message_turn message = inr asked.

(** ** What is observed of a viseme track *)

(** The start times do not decrease along the track. *)
Definition ordered (track : list cue) : Prop :=
  ∀ i j ci cj, (i ≤ j)%nat →
    track !! i = Some ci → track !! j = Some cj → (start ci <= start cj)%Q.

(** The rounds the two loops make over the words: one per code unit and one
    per word. *)
Definition rounds (words : list jsstring) : nat :=
  foldr (λ word n, (length word + 1 + n)%nat) 0%nat words.

(** ** Sample inputs

    Concrete draws, environments, requests and providers, on which the
    theorems below are run. *)

Definition sample_draws : nat → Q := λ _, (1 # 2)%Q.

Definition sample_env : InterviewEnv :=
  {| GROQ_API_KEY := Some (of_string "gsk_test"); INTERVIEW_MODEL := None |}.

Definition sample_env_with_model : InterviewEnv :=
  {| GROQ_API_KEY := Some (of_string "gsk_test");
     INTERVIEW_MODEL := Some (of_string "gemma2-9b-it") |}.

Definition sample_env_without_key : InterviewEnv :=
  {| GROQ_API_KEY := None; INTERVIEW_MODEL := None |}.

(** POST /interview/chat with the body [{ message, sessionId }]. *)
Definition say (message sessionId : string) : request :=
  {| req_body := BodyObject (Some (JString (of_string message)))
                   (Some (of_string sessionId));
     query_model := None |}.

(** The same, with [?model=] (present and empty) in the URL. *)
Definition say_with_empty_model (message sessionId : string) : request :=
  {| req_body := BodyObject (Some (JString (of_string message)))
                   (Some (of_string sessionId));
     query_model := Some [] |}.

(** A reply in the format the system prompt asks for. *)
Definition structured_reply : jsstring :=
  of_string "{" ++ dquote ++ of_string "text" ++ dquote ++ of_string ": "
  ++ dquote ++ of_string "Tell me about yourself." ++ dquote ++ of_string ", "
  ++ dquote ++ of_string "facialExpression" ++ dquote ++ of_string ": "
  ++ dquote ++ of_string "smile" ++ dquote ++ of_string ", "
  ++ dquote ++ of_string "animation" ++ dquote ++ of_string ": "
  ++ dquote ++ of_string "Talking_1" ++ dquote ++ of_string "}".

(** A JSON object that is not in that format: it has no [text]. *)
Definition misshaped_reply : jsstring :=
  of_string "{" ++ dquote ++ of_string "reply" ++ dquote ++ of_string ": "
  ++ dquote ++ of_string "Good job!" ++ dquote ++ of_string "}".

(** A provider that completes every request with [aiContent]. *)
Definition completes (aiContent : jsstring) : nat → fetch_request → fetch_outcome :=
  λ _ _, Response 200
           (Some {| choices := [ {| choice_message := Some (Some aiContent) |} ];
                    completion_model := DEFAULT_MODEL |}).

(** A provider that answers 503 to every request. *)
Definition unavailable : nat → fetch_request → fetch_outcome :=
  λ _ _, Response 503 None.

(** A provider that cannot be reached. *)
Definition unreachable : nat → fetch_request → fetch_outcome :=
  λ _ _, Rejected (Rejection (of_string "fetch failed")).

(** A provider that completes its first [n] requests and then answers 503. *)
Definition completes_first (n : nat) (aiContent : jsstring) : nat → fetch_request → fetch_outcome :=
  λ k r, if (k <? n)%nat then completes aiContent k r else unavailable k r.

(** A provider that answers 503 once and completes from then on. *)
Definition unavailable_once (aiContent : jsstring) : nat → fetch_request → fetch_outcome :=
  λ k r, if (k =? 0)%nat then unavailable k r else completes aiContent k r.

(** ** The handlers *)

Section Handlers.

(** How the result of an arithmetic operation is rounded to a Number. *)
Variable fl : Q → Q.

(** The [n]-th number [Math.random()] returns. *)
Variable Math_random : nat → Q.

(** What the [n]-th [fetch] of the worker resolves to, for the request it
    carries. *)
Variable fetch_answer : nat → fetch_request → fetch_outcome.

(** [JSON.parse], [None] where it throws. *)
Variable JSON_parse : jsstring → option json.

(** [Math.round(x * 100) / 100] *)
Definition round_to_cents (x : Q) : Q :=
  fl (inject_Z (Math_round (fl (x * 100))) / 100)%Q.

(** The body of the inner [for] loop: one cue, two draws. The literals
    [0.08] and [0.04] are the Numbers nearest to them. *)
Definition push_cue (st : lip_state) : lip_state :=
  let duration :=
    fl (fl (8 # 100) + fl (Math_random (draws st) * fl (4 # 100)))%Q in
  {| cues := cues st ++
       [ {| start := round_to_cents (currentTime st);
            end_ := round_to_cents (fl (currentTime st + duration)%Q);
            value := element visemes
                       (Qfloor (fl (Math_random (S (draws st))
                                    * inject_Z (Z.of_nat (length visemes)))%Q)) |} ];
     currentTime := fl (currentTime st + duration)%Q;
     draws := S (S (draws st)) |}.

(** One round of the outer loop: a cue per code unit of the word, then the
    pause between words. *)
Definition speak_word (st : lip_state) (word : jsstring) : lip_state :=
  let st' := Nat.iter (length word) push_cue st in
  {| cues := cues st';
     currentTime := fl (currentTime st' + fl (1 # 10))%Q;
     draws := draws st' |}.

(** [generateLipSync(text)], started after [n] draws. *)
Definition generateLipSync_from (n : nat) (text : jsstring) : lip_state :=
  fold_left speak_word (split 32 text)
    {| cues := []; currentTime := 0%Q; draws := n |}.

Definition generateLipSync (text : jsstring) : M viseme_track := λ w,
  let st := generateLipSync_from (random_calls w) text in
  (inr {| mouthCues := cues st |}, with_random_calls (draws st) w).

(** [generateLipSync(x)] for a value read from parsed JSON: [x.split] is
    callable on a string only. *)
Definition generateLipSync_of (x : option json) : M (jsstring * viseme_track) :=
  match x with
  | Some (JString s) => track ← generateLipSync s; mret (s, track)
  | _ => throw TypeError
  end.

(** [await fetch(url, init)]: the call is recorded and answered. *)
Definition fetch (r : fetch_request) : M fetch_outcome := λ w,
  (inr (fetch_answer (length (fetch_calls w)) r),
   with_fetch_calls (fetch_calls w ++ [r]) w).

(** The canned reply of both fallback paths. *)
Definition fallback_reply (shown spoken : jsstring) : M reply :=
  track ← generateLipSync spoken;
  mret {| text := shown; audio := []; lipsync := track;
          facialExpression := JString (of_string "sad");
          animation := JString (of_string "Idle") |}.

(** [body.message] and [body.sessionId || "default"]; reading a property
    of null throws. *)
Definition read_body (b : body) : M (option json * jsstring) :=
  match b with
  | BodyNull => throw TypeError
  | BodyObject message sessionId =>
      mret (message, or_string sessionId (of_string "default"))
  end.

(** [try { parsed = JSON.parse(aiContent) } catch { parsed = {...} }] *)
Definition parse_reply (aiContent : jsstring) : json :=
  match JSON_parse aiContent with
  | Some v => v
  | None => wrap_raw aiContent
  end.

(** The end of the [try] block: the lip-sync of [parsed.text] and the
    answer [c.json({ messages: [...], model: data.model })]. *)
Definition present (parsed : json) (used_model : jsstring) : M response :=
  parsed_text ← lift (get_property (of_string "text") parsed);
  '(shown, track) ← generateLipSync_of parsed_text;
  expression ← lift (get_property (of_string "facialExpression") parsed);
  gesture ← lift (get_property (of_string "animation") parsed);
  mret {| resp_status := 200;
          resp_messages :=
            [ {| text := shown; audio := []; lipsync := track;
                 facialExpression :=
                   or_default expression (JString (of_string "default"));
                 animation :=
                   or_default gesture (JString (of_string "Talking_1")) |} ];
          resp_model := Some used_model;
          resp_error := None |}.

(** The [try] block of POST /chat. *)
Definition chat_try (apiKey : jsstring) (env : InterviewEnv) (req : request) : M response :=
  '(userMessage, sessionId) ← read_body (req_body req);
  known ← history_has sessionId;
  when (negb known) (history_set sessionId [system_turn]);;
  asked ← lift (message_turn userMessage);
  history_push sessionId asked;;
  let model := select_model (query_model req) (INTERVIEW_MODEL env) in
  history ← history_read sessionId;
  outcome ← fetch (completion_request apiKey model history);
  match outcome with
  | Rejected e => throw e
  | Response status payload =>
      if negb (ok status)
      then throw (Error (of_string "Groq API error: " ++ decimal status))
      else
        match payload with
        | None => throw SyntaxError
        | Some data =>
            let aiContent := first_content data in
            let parsed := parse_reply aiContent in
            history_push sessionId {| role := assistant; content := aiContent |};;
            history ← history_read sessionId;
            when (21 <? length history)%nat
              (history_set sessionId (truncated history));;
            present parsed (completion_model data)
        end
  end.

(** The answer given when [!apiKey] holds. *)
Definition not_configured : M response :=
  m ← fallback_reply NOT_CONFIGURED_TEXT (of_string "AI interview is not configured.");
  mret {| resp_status := 200; resp_messages := [m];
          resp_model := None; resp_error := None |}.

(** The [catch] clause of POST /chat. *)
Definition chat_catch (error : exn) : M response :=
  m ← fallback_reply TROUBLE_TEXT (of_string "I'm having trouble connecting.");
  mret {| resp_status := 500; resp_messages := [m];
          resp_model := None; resp_error := Some error |}.

(** POST /interview/chat *)
Definition chat (env : InterviewEnv) (req : request) : M response :=
  match GROQ_API_KEY env with
  | Some apiKey =>
      if truthy_string apiKey
      then try_catch (chat_try apiKey env req) chat_catch
      else not_configured
  | None => not_configured
  end.

(** POST /interview/reset. Reading [sessionId] off a null body throws
    outside any [try]; the framework answers that request itself. *)
Definition reset (b : body) : M unit :=
  '(_, sessionId) ← read_body b;
  history_delete sessionId.

(** The world after one request. *)
Definition after (env : InterviewEnv) (w : world) (ev : event) : world :=
  match ev with
  | ChatRequest req => snd (chat env req w)
  | ResetRequest b => snd (reset b w)
  end.

(** The world after a sequence of requests, each handled to its end before
    the next. *)
Definition run (env : InterviewEnv) (events : list event) (w : world) : world :=
  fold_left (after env) events w.

(** The loop invariant of [generateLipSync]: every cue ends after it starts,
    no cue starts after the rounded clock, and the cues are ordered. *)
Definition timed (st : lip_state) : Prop :=
  Forall (λ c, (start c < end_ c)%Q) (cues st)
  ∧ Forall (λ c, (start c <= round_to_cents (currentTime st))%Q) (cues st)
  ∧ ordered (cues st).

(** [timed], with the clock at most a quarter of a second per round of the
    loops run so far. *)
Definition clocked (k : nat) (st : lip_state) : Prop :=
  (0 <= currentTime st)%Q ∧ (4 * currentTime st <= nat_Q k)%Q ∧ timed st.

(** ** The other routes *)

(** One entry of the catalog of GET /models. *)
Record model_entry := {
  model_id : jsstring;
  model_name : jsstring;
  model_description : jsstring;
  model_speed : jsstring
}.

(** What GET /interview/models answers. *)
Record models_reply := {
  current : jsstring;
  available : list model_entry;
  usage : jsstring
}.

(** GET /interview/models: it reads the environment only. *)
Definition models (env : InterviewEnv) : models_reply :=
  {| current := or_string (INTERVIEW_MODEL env) DEFAULT_MODEL;
     available :=
       [ {| model_id := of_string "llama-3.3-70b-versatile";
            model_name := of_string "Llama 3.3 70B";
            model_description := of_string "Best quality, recommended";
            model_speed := of_string "fast" |};
         {| model_id := of_string "llama-3.1-8b-instant";
            model_name := of_string "Llama 3.1 8B";
            model_description := of_string "Fastest response time";
            model_speed := of_string "fastest" |};
         {| model_id := of_string "mixtral-8x7b-32768";
            model_name := of_string "Mixtral 8x7B";
            model_description := of_string "Good balance of speed and quality";
            model_speed := of_string "fast" |};
         {| model_id := of_string "gemma2-9b-it";
            model_name := of_string "Gemma 2 9B";
            model_description := of_string "Google's compact model";
            model_speed := of_string "fast" |} ];
     usage :=
       of_string "Pass ?model=<model-id> to POST /interview/chat, or set INTERVIEW_MODEL env var" |}.

(** What POST /interview/reset answers. *)
Record reset_reply := { success : bool; reset_message : jsstring }.

(** POST /interview/reset with its answer
    [c.json({ success: true, message: "Conversation reset" })]. *)
Definition reset_route (b : body) : M reset_reply :=
  reset b;;
  mret {| success := true; reset_message := of_string "Conversation reset" |}.

(** The code units of a text that are not the separator of [split(" ")]. *)
Definition spoken_units (text : jsstring) : jsstring :=
  filter (λ c, c ≠ 32) text.

(** No cue ends after the next one starts. *)
Definition abutting (track : list cue) : Prop :=
  ∀ i ci cj, track !! i = Some ci → track !! S i = Some cj →
             (end_ ci <= start cj)%Q.

(** The loop invariant behind [abutting]: [clocked], no cue ends after the
    rounded clock, and the cues abut. *)
Definition flush (k : nat) (st : lip_state) : Prop :=
  clocked k st
  ∧ Forall (λ c, (end_ c <= round_to_cents (currentTime st))%Q) (cues st)
  ∧ abutting (cues st).

(** A cue that lasts between 0.068 and 0.132 seconds: the 0.08 to 0.12 of
    the duration drawn, give or take the hundredth that rounding the two
    ends can move each way and the error of the arithmetic. *)
Definition steady (c : cue) : Prop :=
  (68 # 1000 <= end_ c - start c)%Q ∧ (end_ c - start c <= 132 # 1000)%Q.


(** A request to the provider that names a model, starts with the system
    turn and ends with a user turn. *)
Definition well_opened (r : fetch_request) : Prop :=
  model r ≠ []
  ∧ head (messages r) = Some system_turn
  ∧ role <$> last (messages r) = Some user.

(** ** Stepping through a computation *)

Lemma bind_returns {A B} (m : M A) (k : A → M B) w a w' :
  m w = (inr a, w') → (m ≫= k) w = k a w'.
Proof. intros H. unfold mbind, M_bind. by rewrite H. Qed.

Lemma bind_throws {A B} (m : M A) (k : A → M B) w e w' :
  m w = (inl e, w') → (m ≫= k) w = (inl e, w').
Proof. intros H. unfold mbind, M_bind. by rewrite H. Qed.

Lemma try_catch_returns {A} (m : M A) h w a w' :
  m w = (inr a, w') → try_catch m h w = (inr a, w').
Proof. intros H. unfold try_catch. by rewrite H. Qed.

(** Creating the history when it is missing and pushing a turn leaves the
    registry holding the prior history with the turn at its end. *)
Lemma open_and_push {A} sessionId t (k : M A) w :
  (known ← history_has sessionId;
   when (negb known) (history_set sessionId [system_turn]);;
   asked ← lift (inr t);
   history_push sessionId asked;; k) w
  = k (with_history
         (<[sessionId := prior w sessionId ++ [t]]> (conversationHistory w)) w).
Proof.
  unfold mbind, M_bind, history_has, when, lift, history_push, history_set, prior.
  destruct (conversationHistory w !! sessionId) as [h|] eqn:E; simpl.
  - by rewrite E.
  - rewrite lookup_insert_eq. simpl. unfold with_history. simpl.
    by rewrite insert_insert_eq.
Qed.

(** Creating the history when it is missing, then a throw where the turn
    is made: the registry holds the prior history, and nothing is pushed. *)
Lemma open_and_throw {A} sessionId e (k : turn → M A) w :
  (known ← history_has sessionId;
   when (negb known) (history_set sessionId [system_turn]);;
   asked ← lift (inl e);
   k asked) w
  = (inl e,
     with_history
       (<[sessionId := prior w sessionId]> (conversationHistory w)) w).
Proof.
  unfold mbind, M_bind, history_has, when, lift, history_set, prior.
  destruct (conversationHistory w !! sessionId) as [h|] eqn:E; simpl.
  - rewrite insert_id by done. by destruct w.
  - reflexivity.
Qed.

(** Pushing onto a history the registry holds, then reading it. *)
Lemma push_and_read {A} sessionId t h (k : list turn → M A) w :
  conversationHistory w !! sessionId = Some h →
  (history_push sessionId t;; history ← history_read sessionId; k history) w
  = k (h ++ [t])
      (with_history (<[sessionId := h ++ [t]]> (conversationHistory w)) w).
Proof.
  intros E. unfold mbind, M_bind, history_push, history_read, history_set.
  rewrite E. simpl. by rewrite lookup_insert_eq.
Qed.

Lemma read_held {A} sessionId h (k : list turn → M A) w :
  conversationHistory w !! sessionId = Some h →
  (history ← history_read sessionId; k history) w = k h w.
Proof. intros E. unfold mbind, M_bind, history_read. by rewrite E. Qed.

(** ** Steps that leave the registry and the provider alone *)

Lemma same_store_refl w : same_store w w.
Proof. by split. Qed.

Lemma same_store_trans w1 w2 w3 :
  same_store w1 w2 → same_store w2 w3 → same_store w1 w3.
Proof. intros [? ?] [? ?]. split; congruence. Qed.

Lemma generateLipSync_returns s w :
  generateLipSync s w
  = (inr {| mouthCues := cues (generateLipSync_from (random_calls w) s) |},
     with_random_calls (draws (generateLipSync_from (random_calls w) s)) w).
Proof. reflexivity. Qed.

Lemma not_configured_returns w :
  ∃ track w',
    not_configured w
    = (inr {| resp_status := 200;
              resp_messages :=
                [ {| text := NOT_CONFIGURED_TEXT; audio := []; lipsync := track;
                     facialExpression := JString (of_string "sad");
                     animation := JString (of_string "Idle") |} ];
              resp_model := None; resp_error := None |}, w')
    ∧ same_store w w'.
Proof.
  eexists _, _. split; [reflexivity|]. by split.
Qed.

Lemma chat_catch_returns error w :
  ∃ track w',
    chat_catch error w
    = (inr {| resp_status := 500;
              resp_messages :=
                [ {| text := TROUBLE_TEXT; audio := []; lipsync := track;
                     facialExpression := JString (of_string "sad");
                     animation := JString (of_string "Idle") |} ];
              resp_model := None; resp_error := Some error |}, w')
    ∧ same_store w w'.
Proof.
  eexists _, _. split; [reflexivity|]. by split.
Qed.

Lemma present_same_store parsed used w :
  same_store w (snd (present parsed used w)).
Proof.
  unfold present, mbind, M_bind, lift, generateLipSync_of.
  destruct (get_property (of_string "text") parsed) as [e|[[]|]];
    try apply same_store_refl.
  unfold mbind, M_bind. rewrite generateLipSync_returns. simpl.
  destruct (get_property (of_string "facialExpression") parsed);
    [by split|].
  destruct (get_property (of_string "animation") parsed); by split.
Qed.

(** The wrapped reply is presented as it stands. *)
Lemma present_wrapped aiContent used w :
  ∃ track w',
    present (wrap_raw aiContent) used w
    = (inr {| resp_status := 200;
              resp_messages :=
                [ {| text := aiContent; audio := []; lipsync := track;
                     facialExpression := JString (of_string "default");
                     animation := JString (of_string "Talking_1") |} ];
              resp_model := Some used;
              resp_error := None |}, w').
Proof. eexists _, _. reflexivity. Qed.

(** ** The chat handler, step by step *)

(** Replaces the world after the [catch] clause by the world [w0] it
    started from, wherever the goal reads the registry or the calls. *)
Ltac caught e w0 :=
  let Hh := fresh in
  let Hf := fresh in
  destruct (chat_catch_returns e w0) as (? & ? & -> & Hh & Hf);
  cbn [snd fst]; rewrite ?Hh, ?Hf; clear Hh Hf.

Section ChatSteps.

Variables (apiKey : jsstring) (env : InterviewEnv) (req : request) (w : world).
Variables (message : option json) (sessionId : option jsstring).
Variable said : turn.
Hypothesis body_read : req_body req = BodyObject message sessionId.
Hypothesis turn_read : message_turn message = inr said.

Let sid := or_string sessionId (of_string "default").
Let asked := prior w sid ++ [said].
Let sent :=
  completion_request apiKey
    (select_model (query_model req) (INTERVIEW_MODEL env)) asked.
Let waiting :=
  with_fetch_calls (fetch_calls w ++ [sent])
    (with_history (<[sid := asked]> (conversationHistory w)) w).

(** The [try] block up to the answer of the provider: the user turn is in
    the registry and one request went out, whatever comes back. *)
Lemma chat_try_steps :
  chat_try apiKey env req w =
  match fetch_answer (length (fetch_calls w)) sent with
  | Rejected e => (inl e, waiting)
  | Response status payload =>
      if ok status then
        match payload with
        | None => (inl SyntaxError, waiting)
        | Some data =>
            present (parse_reply (first_content data)) (completion_model data)
              (with_history
                 (<[sid := kept (asked ++ [ {| role := assistant;
                                              content := first_content data |} ])]>
                    (conversationHistory w))
                 waiting)
        end
      else (inl (Error (of_string "Groq API error: " ++ decimal status)), waiting)
  end.
Proof.
  unfold chat_try. rewrite body_read.
  change (read_body (BodyObject message sessionId)) with
    (mret (M := M) (message, sid)).
  erewrite bind_returns by reflexivity. cbv beta iota.
  rewrite turn_read, open_and_push. fold asked.
  erewrite read_held by apply lookup_insert_eq.
  erewrite bind_returns by reflexivity.
  fold sent. cbn [with_history with_fetch_calls fetch_calls conversationHistory random_calls].
  destruct (fetch_answer (length (fetch_calls w)) sent) as [e|status payload];
    [reflexivity|].
  destruct (ok status); cbn [negb]; [|reflexivity].
  destruct payload as [data|]; [|reflexivity].
  cbv zeta.
  erewrite push_and_read by apply lookup_insert_eq.
  unfold kept, when, waiting, with_history, with_fetch_calls.
  cbn [fetch_calls conversationHistory random_calls].
  destruct (21 <? _)%nat.
  - unfold mbind at 1, M_bind at 1, history_set, with_history.
    cbn [fetch_calls conversationHistory random_calls].
    by rewrite !insert_insert_eq.
  - unfold mbind at 1, M_bind at 1, mret, M_ret.
    by rewrite !insert_insert_eq.
Qed.

(** The whole handler under a configured credential. *)
Lemma chat_steps :
  truthy_string apiKey = true →
  GROQ_API_KEY env = Some apiKey →
  chat env req w =
  match fetch_answer (length (fetch_calls w)) sent with
  | Rejected e => chat_catch e waiting
  | Response status payload =>
      if ok status then
        match payload with
        | None => chat_catch SyntaxError waiting
        | Some data =>
            try_catch
              (present (parse_reply (first_content data)) (completion_model data))
              chat_catch
              (with_history
                 (<[sid := kept (asked ++ [ {| role := assistant;
                                              content := first_content data |} ])]>
                    (conversationHistory w))
                 waiting)
        end
      else chat_catch (Error (of_string "Groq API error: " ++ decimal status)) waiting
  end.
Proof.
  intros Hkey Henv. unfold chat. rewrite Henv, Hkey.
  unfold try_catch at 1. rewrite chat_try_steps.
  destruct (fetch_answer (length (fetch_calls w)) sent) as [e|status payload];
    [reflexivity|].
  destruct (ok status); [|reflexivity].
  destruct payload as [data|]; reflexivity.
Qed.

(** Under a configured credential and a body that can be read, exactly one
    request goes to the provider, and the entry of the session ends either
    with the user turn alone (the provider call failed) or with the user
    turn and the assistant turn, truncated when too long. *)
Lemma chat_store :
  truthy_string apiKey = true →
  GROQ_API_KEY env = Some apiKey →
  fetch_calls (snd (chat env req w)) = fetch_calls w ++ [sent]
  ∧ conversationHistory (snd (chat env req w))
    = <[sid := match answer_content (fetch_answer (length (fetch_calls w)) sent) with
               | Some aiContent =>
                   kept (asked ++ [ {| role := assistant; content := aiContent |} ])
               | None => asked
               end]> (conversationHistory w).
Proof.
  intros Hkey Henv. rewrite (chat_steps Hkey Henv). unfold answer_content.
  destruct (fetch_answer (length (fetch_calls w)) sent) as [e|status payload].
  - by caught e waiting.
  - destruct (ok status).
    + destruct payload as [data|].
      * set (w2 := with_history _ waiting).
        assert (same_store w2 (snd (try_catch
                  (present (parse_reply (first_content data)) (completion_model data))
                  chat_catch w2))) as [Hh Hf].
        { unfold try_catch.
          pose proof (present_same_store (parse_reply (first_content data))
                        (completion_model data) w2) as Hp.
          destruct (present _ _ w2) as [[e|r] w3]; [|exact Hp].
          destruct (chat_catch_returns e w3) as (? & ? & -> & Hc).
          exact (same_store_trans _ _ _ Hp Hc). }
        by rewrite Hh, Hf.
      * by caught SyntaxError waiting.
    + caught (Error (of_string "Groq API error: " ++ decimal status)) waiting.
      by destruct payload.
Qed.

End ChatSteps.

(** What [message_turn] can give. *)
Lemma message_turn_cases message :
  message_turn message = inl TypeError ∨ ∃ said, message_turn message = inr said.
Proof.
  destruct message as [[| | | | |]|]; cbn [message_turn]; eauto;
    destruct (truthy _); eauto.
Qed.

(** Under a credential, a body whose message is a truthy value that is not
    a string makes the handler answer 500 with a TypeError: the history of
    the session is created when it is missing, no turn is pushed and nothing
    goes to the provider. *)
Lemma chat_mistyped apiKey env req w message sessionId :
  GROQ_API_KEY env = Some apiKey →
  truthy_string apiKey = true →
  req_body req = BodyObject message sessionId →
  message_turn message = inl TypeError →
  ∃ track,
    fst (chat env req w)
    = inr {| resp_status := 500;
             resp_messages :=
               [ {| text := TROUBLE_TEXT; audio := []; lipsync := track;
                    facialExpression := JString (of_string "sad");
                    animation := JString (of_string "Idle") |} ];
             resp_model := None; resp_error := Some TypeError |}
    ∧ conversationHistory (snd (chat env req w))
      = <[or_string sessionId (of_string "default") :=
            prior w (or_string sessionId (of_string "default"))]>
          (conversationHistory w)
    ∧ fetch_calls (snd (chat env req w)) = fetch_calls w.
Proof.
  intros Henv Hkey Hbody Hturn. unfold chat. rewrite Henv, Hkey.
  unfold try_catch, chat_try. rewrite Hbody.
  change (read_body (BodyObject message sessionId)) with
    (mret (M := M) (message, or_string sessionId (of_string "default"))).
  erewrite bind_returns by reflexivity. cbv beta iota.
  rewrite Hturn, open_and_throw.
  match goal with |- context [chat_catch ?e ?w0] =>
    destruct (chat_catch_returns e w0) as (track & w' & -> & Hh & Hf)
  end.
  exists track. cbn [fst snd]. by rewrite Hh, Hf.
Qed.

(** A chat request stops before it touches the registry or the provider,
    or it stops where the user turn is made, or it runs under a credential,
    a body it can read and a message that gives a user turn. *)
Lemma chat_cases env req w :
  same_store w (snd (chat env req w))
  ∨ (∃ sid,
       conversationHistory (snd (chat env req w))
       = <[sid := prior w sid]> (conversationHistory w)
       ∧ fetch_calls (snd (chat env req w)) = fetch_calls w
       ∧ ∃ message sessionId,
           req_body req = BodyObject message sessionId
           ∧ sid = or_string sessionId (of_string "default"))
  ∨ ∃ apiKey message sessionId said,
      GROQ_API_KEY env = Some apiKey
      ∧ truthy_string apiKey = true
      ∧ req_body req = BodyObject message sessionId
      ∧ message_turn message = inr said.
Proof.
  destruct (GROQ_API_KEY env) as [apiKey|] eqn:Henv.
  2: { left. unfold chat. rewrite Henv.
       by destruct (not_configured_returns w) as (? & ? & -> & H). }
  destruct (truthy_string apiKey) eqn:Hkey.
  2: { left. unfold chat. rewrite Henv, Hkey.
       by destruct (not_configured_returns w) as (? & ? & -> & H). }
  destruct (req_body req) as [|message sessionId] eqn:Hbody.
  - left. unfold chat. rewrite Henv, Hkey.
    unfold try_catch, chat_try. rewrite Hbody.
    erewrite bind_throws by reflexivity.
    by destruct (chat_catch_returns TypeError w) as (? & ? & -> & H).
  - destruct (message_turn_cases message) as [Hturn|[said Hturn]].
    + right. left.
      destruct (chat_mistyped apiKey env req w message sessionId
                  Henv Hkey Hbody Hturn) as (_ & _ & Hh & Hf).
      exists (or_string sessionId (of_string "default")). eauto 10.
    + right. right. by exists apiKey, message, sessionId, said.
Qed.

(** The user turn has the role [user]. *)
Lemma user_turn_role userMessage : role (user_turn userMessage) = user.
Proof.
  unfold user_turn. destruct userMessage as [m|]; [|done].
  by destruct (truthy_string m && negb (bool_decide (trim m = []))).
Qed.

Lemma message_turn_role message said :
  message_turn message = inr said → role said = user.
Proof.
  intros H.
  assert (∃ userMessage, said = user_turn userMessage) as [userMessage ->];
    [|apply user_turn_role].
  unfold message_turn in H.
  destruct message as [[| | |m| |]|]; try destruct (truthy _);
    try discriminate H;
    first [exists None; congruence|exists (Some m); congruence].
Qed.

(** A chat request leaves the registry as it was, or creates the history of
    one session, or changes the entry of one session in one of the two ways
    of [chat_store]. *)
Lemma chat_registry env req w :
  conversationHistory (snd (chat env req w)) = conversationHistory w
  ∨ ∃ sid,
      conversationHistory (snd (chat env req w))
        = <[sid := prior w sid]> (conversationHistory w)
      ∨ ∃ said,
          role said = user
          ∧ (conversationHistory (snd (chat env req w))
               = <[sid := prior w sid ++ [said]]> (conversationHistory w)
             ∨ ∃ reply,
                 conversationHistory (snd (chat env req w))
                 = <[sid := kept (prior w sid ++ [said]
                                  ++ [ {| role := assistant; content := reply |} ])]>
                     (conversationHistory w)).
Proof.
  destruct (chat_cases env req w)
    as [[H _]|[(sid & H & _)
              |(apiKey & message & sessionId & said & Henv & Hkey & Hbody & Hturn)]];
    [by left|right; exists sid; by left|].
  right. exists (or_string sessionId (of_string "default")). right.
  exists said. split; [exact (message_turn_role _ _ Hturn)|].
  destruct (chat_store apiKey env req w message sessionId said Hbody Hturn
              Hkey Henv) as [_ H].
  destruct (answer_content _) as [aiContent|]; [right|by left].
  exists aiContent. by rewrite <- app_assoc in H.
Qed.

(** ** The first turn of every transcript *)

Lemma head_app_keeps (h l : list turn) t :
  head h = Some t → head (h ++ l) = Some t.
Proof. by destruct h. Qed.

Lemma head_kept (h : list turn) t :
  head h = Some t → head (kept h) = Some t.
Proof.
  unfold kept, truncated. destruct (21 <? length h)%nat; [|done].
  by destruct h.
Qed.

Lemma length_truncated (h : list turn) :
  (21 < length h)%nat → length (truncated h) = 21%nat.
Proof.
  intros Hlen. unfold truncated.
  rewrite length_app, length_take, length_drop. lia.
Qed.

Lemma prior_head w sid :
  system_first w → head (prior w sid) = Some system_turn.
Proof.
  intros Hw. unfold prior.
  destruct (conversationHistory w !! sid) as [h|] eqn:E; [|done].
  exact (Hw sid h E).
Qed.

Lemma system_first_insert w registry sid h :
  system_first w →
  head h = Some system_turn →
  registry = <[sid := h]> (conversationHistory w) →
  ∀ sid' h', registry !! sid' = Some h' → head h' = Some system_turn.
Proof.
  intros Hw Hh -> sid' h'. rewrite lookup_insert.
  case_decide; [congruence|]. apply Hw.
Qed.

Lemma chat_system_first env req w :
  system_first w → system_first (snd (chat env req w)).
Proof.
  intros Hw. unfold system_first.
  destruct (chat_registry env req w)
    as [->|(sid & [H|(said & _ & [H|[reply H]])])]; [exact Hw| | |].
  - eapply system_first_insert; [exact Hw| |exact H].
    apply prior_head, Hw.
  - eapply system_first_insert; [exact Hw| |exact H].
    apply head_app_keeps, prior_head, Hw.
  - eapply system_first_insert; [exact Hw| |exact H].
    apply head_kept, head_app_keeps, prior_head, Hw.
Qed.

(** What a reset request does to the registry. *)
Lemma reset_registry b w :
  conversationHistory (snd (reset b w))
  = match b with
    | BodyNull => conversationHistory w
    | BodyObject _ sessionId =>
        delete (or_string sessionId (of_string "default")) (conversationHistory w)
    end.
Proof. by destruct b. Qed.

Lemma reset_system_first b w :
  system_first w → system_first (snd (reset b w)).
Proof.
  intros Hw sid h. rewrite reset_registry.
  destruct b as [|message sessionId]; [apply Hw|].
  rewrite lookup_delete. case_decide; [done|]. apply Hw.
Qed.

Lemma run_system_first env events w :
  system_first w → system_first (run env events w).
Proof.
  revert w. induction events as [|ev events IH]; intros w Hw; [exact Hw|].
  apply IH. destruct ev; [by apply chat_system_first|by apply reset_system_first].
Qed.

(** C2. Along every sequence of chat and reset requests, whatever the
    provider answers, a transcript the registry holds starts with the fixed
    system instruction: it is created so, and the pushes and the truncation
    of every request keep its first turn. *)
Theorem first_turn_is_system_instruction env events sid h :
  transcript (run env events initial_world) sid = Some h →
  head h = Some system_turn.
Proof.
  apply run_system_first. intros sid' h'. cbn. by rewrite lookup_empty.
Qed.

(** ** Without a credential *)

Lemma chat_without_key env req w :
  GROQ_API_KEY env = None → chat env req w = not_configured w.
Proof. intros H. unfold chat. by rewrite H. Qed.

(** C7. Without GROQ_API_KEY the handler answers with status 200 and one
    message that carries the explanatory text, the expression "sad" and the
    animation "Idle"; no error is reported. *)
Theorem chat_without_key_degrades env req w :
  GROQ_API_KEY env = None →
  ∃ track,
    fst (chat env req w)
    = inr {| resp_status := 200;
             resp_messages :=
               [ {| text := NOT_CONFIGURED_TEXT; audio := []; lipsync := track;
                    facialExpression := JString (of_string "sad");
                    animation := JString (of_string "Idle") |} ];
             resp_model := None; resp_error := None |}.
Proof.
  intros H. rewrite (chat_without_key _ _ _ H).
  destruct (not_configured_returns w) as (track & w' & -> & _). by exists track.
Qed.

(** C10. Without GROQ_API_KEY the handler leaves the session registry as it
    found it, for every session id, and sends nothing to the provider. *)
Theorem chat_without_key_keeps_registry env req w :
  GROQ_API_KEY env = None →
  conversationHistory (snd (chat env req w)) = conversationHistory w
  ∧ fetch_calls (snd (chat env req w)) = fetch_calls w.
Proof.
  intros H. rewrite (chat_without_key _ _ _ H).
  by destruct (not_configured_returns w) as (track & w' & -> & ? & ?).
Qed.

(** ** What goes to the provider *)

Lemma trim_start_nil s :
  trim_start s = [] ↔ ∀ c, c ∈ s → is_trim_space c = true.
Proof.
  induction s as [|c s IH]; cbn [trim_start].
  - split; [|done]. intros _ c Hc. by apply elem_of_nil in Hc.
  - destruct (is_trim_space c) eqn:Hc.
    + rewrite IH. split.
      * intros H c' Hc'. apply elem_of_cons in Hc' as [->|?]; auto.
      * intros H c' Hc'. apply H. by right.
    + split; [done|]. intros H. specialize (H c (list_elem_of_here _ _)).
      congruence.
Qed.

Lemma trim_start_head s c rest :
  trim_start s = c :: rest → is_trim_space c = false.
Proof.
  induction s as [|c' s IH]; cbn [trim_start]; [done|].
  destruct (is_trim_space c') eqn:Hc; [exact IH|]. congruence.
Qed.

(** [s.trim()] is empty exactly when [s] holds white space only. *)
Lemma trim_nil s :
  trim s = [] ↔ ∀ c, c ∈ s → is_trim_space c = true.
Proof.
  unfold trim. split.
  - intros H. apply trim_start_nil.
    destruct (trim_start s) as [|c rest] eqn:Hs; [done|].
    apply (f_equal (@rev N)) in H. rewrite rev_involutive in H.
    change (@rev N []) with (@nil N) in H.
    pose proof (proj1 (trim_start_nil _) H) as Hall.
    pose proof (trim_start_head _ _ _ Hs) as Hc.
    rewrite (Hall c) in Hc; [done|].
    apply list_elem_of_In, in_rev. rewrite rev_involutive.
    apply list_elem_of_In, list_elem_of_here.
  - intros H. by rewrite (proj2 (trim_start_nil s) H).
Qed.

(** The content of the user turn, by the cases of the message. *)
Lemma user_turn_cases message :
  role (user_turn message) = user
  ∧ (∀ m, message = Some m →
       (∃ c, c ∈ m ∧ is_trim_space c = false) → content (user_turn message) = m)
  ∧ (message = None ∨ (∃ m, message = Some m ∧ ∀ c, c ∈ m → is_trim_space c = true) →
       content (user_turn message) = GREETING)
  ∧ content (user_turn message) ≠ [].
Proof.
  unfold user_turn. destruct message as [m|].
  2: { split; [done|]. split; [done|]. split; done. }
  destruct (truthy_string m && negb (bool_decide (trim m = []))) eqn:Hm.
  - apply andb_prop in Hm as [Hne Htrim].
    apply negb_true_iff, bool_decide_eq_false in Htrim.
    split; [done|]. split; [|split].
    + by intros ? [= <-].
    + intros [|(m' & [= <-] & Hall)]; [done|].
      by apply trim_nil in Hall.
    + cbn. by destruct m.
  - split; [done|]. split; [|split; done].
    intros m' [= <-] (c & Hc & Hspace). exfalso.
    apply andb_false_iff in Hm as [Hm|Hm].
    + destruct m; [by apply elem_of_nil in Hc|done].
    + apply negb_false_iff, bool_decide_eq_true in Hm.
      rewrite trim_nil in Hm. rewrite (Hm c Hc) in Hspace. done.
Qed.

(** The model chosen, by the cases of the query parameter and the
    configured value. *)
Lemma select_model_cases queryModel configured :
  (∀ q, queryModel = Some q → q ≠ [] → select_model queryModel configured = q)
  ∧ (∀ c, queryModel = None ∨ queryModel = Some [] →
          configured = Some c → c ≠ [] → select_model queryModel configured = c)
  ∧ (queryModel = None ∨ queryModel = Some [] →
     configured = None ∨ configured = Some [] →
     select_model queryModel configured = DEFAULT_MODEL).
Proof.
  unfold select_model, or_string. repeat split.
  - intros q -> Hq. by destruct q.
  - intros c [->| ->] -> Hc; by destruct c.
  - by intros [->| ->] [->| ->].
Qed.

(** The truncation keeps the last exchange of a history. *)
Lemma kept_keeps_exchange (l : list turn) u a :
  ∃ earlier, kept (l ++ [u; a]) = earlier ++ [u; a].
Proof.
  unfold kept. destruct (21 <? _)%nat eqn:Hlong; [|by exists l].
  apply Nat.ltb_lt in Hlong. rewrite length_app in Hlong. cbn [length] in Hlong.
  unfold truncated. rewrite length_app. cbn [length].
  rewrite drop_app_le by lia.
  eexists. by rewrite app_assoc.
Qed.

(** The content of the user turn, by the cases of the message of the
    request. *)
Lemma message_turn_content message pushed :
  message_turn message = inr pushed →
  role pushed = user
  ∧ (∀ m, message = Some (JString m) →
       (∃ c, c ∈ m ∧ is_trim_space c = false) → content pushed = m)
  ∧ (message = None
     ∨ (∃ m, message = Some (JString m) ∧ ∀ c, c ∈ m → is_trim_space c = true)
     ∨ (∃ v, message = Some v ∧ truthy v = false) →
       content pushed = GREETING)
  ∧ content pushed ≠ [].
Proof.
  intros Hturn. split; [exact (message_turn_role _ _ Hturn)|].
  unfold message_turn in Hturn.
  destruct message as [v|].
  2: { injection Hturn as <-. split; [done|]. split; done. }
  assert ((∃ m, v = JString m) ∨ (∀ m, v ≠ JString m)) as [[m ->]|Hother].
  { destruct v; eauto; right; intros m; discriminate. }
  - injection Hturn as <-.
    destruct (user_turn_cases (Some m)) as (_ & Hverbatim & Hgreeting & Hne).
    split; [|split; [|exact Hne]].
    + intros m' [= <-]. by apply Hverbatim.
    + intros [|[(m' & [= <-] & Hall)|(v & [= <-] & Hfalsy)]]; [done| |].
      * apply Hgreeting. right. by exists m.
      * apply Hgreeting. right. exists m. split; [done|].
        cbn [truthy] in Hfalsy. destruct m; [|done].
        intros c Hc. by apply elem_of_nil in Hc.
  - assert (truthy v = false ∧ pushed = user_turn None) as [Hfalsy ->].
    { destruct v as [| | |m| |];
        try (destruct (truthy _); [done|by injection Hturn as <-]).
      by destruct (Hother m). }
    split; [|split; done].
    intros m [= ->]. by destruct (Hother m).
Qed.

Section Sent.

Variables (apiKey : jsstring) (env : InterviewEnv) (req : request) (w : world).
Variables (message : option json) (sessionId : option jsstring).
Variable pushed : turn.
Hypothesis key_configured : GROQ_API_KEY env = Some apiKey.
Hypothesis key_not_empty : apiKey ≠ [].
Hypothesis body_read : req_body req = BodyObject message sessionId.
Hypothesis turn_read : message_turn message = inr pushed.

Lemma key_truthy : truthy_string apiKey = true.
Proof using key_not_empty. clear - key_not_empty. by destruct apiKey. Qed.

(** C4, as amended. On a request that gets to the provider call, the user
    turn is appended to the transcript of the session: it ends the messages
    sent to the provider, and the registry holds it after the request, last
    in the transcript or followed by the assistant turn alone. It holds the
    message of the request verbatim when that message is a string with a
    character other than white space, and the canned greeting when the
    message is absent, empty, white space only or a falsy value of another
    kind; its content is never empty. *)
Theorem user_turn_is_message_or_greeting :
  ∃ sent said,
    fetch_calls (snd (chat env req w)) = fetch_calls w ++ [sent]
    ∧ messages sent
      = prior w (or_string sessionId (of_string "default"))
        ++ [ {| role := user; content := said |} ]
    ∧ conversationHistory (snd (chat env req w))
      = <[or_string sessionId (of_string "default") :=
            match answer_content
                    (fetch_answer (length (fetch_calls w)) sent) with
            | Some aiContent =>
                kept (prior w (or_string sessionId (of_string "default"))
                      ++ [ {| role := user; content := said |};
                           {| role := assistant; content := aiContent |} ])
            | None =>
                prior w (or_string sessionId (of_string "default"))
                ++ [ {| role := user; content := said |} ]
            end]> (conversationHistory w)
    ∧ (∃ earlier later,
         transcript (snd (chat env req w))
           (or_string sessionId (of_string "default"))
         = Some (earlier ++ {| role := user; content := said |} :: later)
         ∧ (later = []
            ∨ ∃ aiContent,
                later = [ {| role := assistant; content := aiContent |} ]))
    ∧ (∀ m, message = Some (JString m) →
         (∃ c, c ∈ m ∧ is_trim_space c = false) → said = m)
    ∧ (message = None
       ∨ (∃ m, message = Some (JString m) ∧ ∀ c, c ∈ m → is_trim_space c = true)
       ∨ (∃ v, message = Some v ∧ truthy v = false) →
         said = GREETING)
    ∧ said ≠ [].
Proof using All.
  destruct (chat_store apiKey env req w message sessionId pushed body_read
              turn_read key_truthy key_configured) as [Hsent Hstore].
  destruct (message_turn_content message pushed turn_read)
    as (Hrole & Hverbatim & Hgreeting & Hne).
  assert (pushed = {| role := user; content := content pushed |}) as Hpushed.
  { destruct pushed as [r c]. cbn in Hrole |- *. by rewrite Hrole. }
  rewrite Hpushed in Hsent, Hstore. cbn [content] in Hsent, Hstore.
  eexists _, (content pushed).
  split; [exact Hsent|]. split; [reflexivity|].
  cbn [messages completion_request].
  unfold transcript. rewrite Hstore, lookup_insert_eq.
  destruct (answer_content _) as [aiContent|];
    rewrite <- ?app_assoc; cbn [app]; (split; [reflexivity|]); (split; [|done]).
  - destruct (kept_keeps_exchange
                (prior w (or_string sessionId (of_string "default")))
                {| role := user; content := content pushed |}
                {| role := assistant; content := aiContent |})
      as [earlier ->].
    exists earlier, [ {| role := assistant; content := aiContent |} ].
    split; [done|]. right. by exists aiContent.
  - eexists _, []. split; [reflexivity|by left].
Qed.

(** C6, as amended. The model sent to the provider is the query parameter
    when it is present and not empty; otherwise INTERVIEW_MODEL when it is
    configured and not empty; otherwise the hardcoded default. *)
Theorem model_precedence :
  ∃ sent,
    fetch_calls (snd (chat env req w)) = fetch_calls w ++ [sent]
    ∧ (∀ q, query_model req = Some q → q ≠ [] → model sent = q)
    ∧ (∀ c, query_model req = None ∨ query_model req = Some [] →
            INTERVIEW_MODEL env = Some c → c ≠ [] → model sent = c)
    ∧ (query_model req = None ∨ query_model req = Some [] →
       INTERVIEW_MODEL env = None ∨ INTERVIEW_MODEL env = Some [] →
       model sent = DEFAULT_MODEL
       ∧ DEFAULT_MODEL = of_string "llama-3.3-70b-versatile").
Proof using All.
  destruct (chat_store apiKey env req w message sessionId pushed body_read
              turn_read key_truthy key_configured) as [Hsent _].
  destruct (select_model_cases (query_model req) (INTERVIEW_MODEL env))
    as (Hq & Hc & Hd).
  eexists. split; [exact Hsent|]. cbn [model completion_request].
  repeat split; auto.
Qed.

Variables (status : N) (payload : option completion).
Hypothesis answered :
  ∀ r, fetch_answer (length (fetch_calls w)) r = Response status payload.

(** C8. When the provider answers the request with a status outside
    200..299, the handler sends that one request and no other, and answers
    with status 500, an [error] field and the canned message whose
    expression is "sad" and whose animation is "Idle". *)
Theorem provider_failure_is_reported :
  ok status = false →
  ∃ track sent,
    fst (chat env req w)
    = inr {| resp_status := 500;
             resp_messages :=
               [ {| text := TROUBLE_TEXT; audio := []; lipsync := track;
                    facialExpression := JString (of_string "sad");
                    animation := JString (of_string "Idle") |} ];
             resp_model := None;
             resp_error :=
               Some (Error (of_string "Groq API error: " ++ decimal status)) |}
    ∧ fetch_calls (snd (chat env req w)) = fetch_calls w ++ [sent].
Proof using All.
  intros Hok.
  rewrite (chat_steps apiKey env req w message sessionId pushed body_read
             turn_read key_truthy key_configured), answered, Hok.
  match goal with |- context [chat_catch ?e ?w0] => caught e w0 end.
  eauto.
Qed.

(** When the provider call succeeds and the content of its reply is not
    valid JSON ([JSON.parse] throws), the handler answers with status 200
    and the raw content as the text, with expression "default" and
    animation "Talking_1". *)
Theorem unparseable_reply_is_wrapped data :
  payload = Some data →
  ok status = true →
  JSON_parse (first_content data) = None →
  ∃ track,
    fst (chat env req w)
    = inr {| resp_status := 200;
             resp_messages :=
               [ {| text := first_content data; audio := []; lipsync := track;
                    facialExpression := JString (of_string "default");
                    animation := JString (of_string "Talking_1") |} ];
             resp_model := Some (completion_model data);
             resp_error := None |}.
Proof using All.
  intros -> Hok Hparse.
  rewrite (chat_steps apiKey env req w message sessionId pushed body_read
             turn_read key_truthy key_configured), answered, Hok.
  unfold parse_reply. rewrite Hparse.
  match goal with |- context [try_catch _ _ ?w0] =>
    destruct (present_wrapped (first_content data) (completion_model data) w0)
      as (track & w' & Hpresent)
  end.
  exists track. by rewrite (try_catch_returns _ _ _ _ _ Hpresent).
Qed.

End Sent.

(** ** The viseme track *)

Lemma ordered_snoc track c :
  ordered track →
  Forall (λ c', (start c' <= start c)%Q) track →
  ordered (track ++ [c]).
Proof.
  intros Ho Hf i j ci cj Hij Hi Hj.
  destruct (decide (j < length track)%nat) as [Hj'|Hj'].
  - rewrite lookup_app_l in Hi, Hj by lia. eauto.
  - pose proof (lookup_lt_Some _ _ _ Hj) as Hlen.
    rewrite length_app in Hlen. cbn in Hlen.
    assert (j = length track) as -> by lia.
    rewrite lookup_app_r, Nat.sub_diag in Hj by lia.
    injection Hj as <-.
    destruct (decide (i < length track)%nat) as [Hi'|Hi'].
    + rewrite lookup_app_l in Hi by lia.
      rewrite Forall_forall in Hf. eapply Hf, list_elem_of_lookup_2, Hi.
    + assert (i = length track) as -> by lia.
      rewrite lookup_app_r, Nat.sub_diag in Hi by lia.
      injection Hi as <-. apply Qle_refl.
Qed.

Lemma nat_Q_S k : (nat_Q (S k) == nat_Q k + 1)%Q.
Proof.
  unfold nat_Q. rewrite Nat2Z.inj_succ, <- Z.add_1_r, inject_Z_plus. reflexivity.
Qed.

Lemma nat_Q_nonneg k : (0 <= nat_Q k)%Q.
Proof. unfold nat_Q. change 0%Q with (inject_Z 0). rewrite <- Zle_Qle. lia. Qed.

Lemma hundredth x : (x / 100)%Q = (x * (1 # 100))%Q.
Proof. reflexivity. Qed.

(** [text.split(" ")] gives the loops one round per code unit of the text,
    and one more. *)
Lemma rounds_split text : rounds (split 32 text) = S (length text).
Proof.
  induction text as [|c text IH]; [done|].
  unfold rounds in *. cbn [split]. destruct (c =? 32).
  - cbn [foldr length] in *. lia.
  - destruct (split 32 text) as [|piece pieces]; cbn [foldr length] in *; lia.
Qed.

Section Rounding.

(** The rounding keeps the order of its arguments, and up to [range] it is
    off by at most a thousandth. *)
Variable range : Q.
Hypothesis fl_monotone : ∀ x y, (x <= y)%Q → (fl x <= fl y)%Q.
Hypothesis fl_near :
  ∀ x, (0 <= x)%Q → (x <= range)%Q →
       (x - (1 # 1000) <= fl x)%Q ∧ (fl x <= x + (1 # 1000))%Q.
Hypothesis draws_in_range : ∀ n, (0 <= Math_random n)%Q ∧ (Math_random n < 1)%Q.

(** Rounding to hundredths keeps the order of two clock values. *)
Lemma round_to_cents_mono x y :
  (x <= y)%Q → (round_to_cents x <= round_to_cents y)%Q.
Proof using fl_monotone.
  intros H. unfold round_to_cents, Math_round.
  apply fl_monotone. rewrite !hundredth.
  assert (fl (x * 100) <= fl (y * 100))%Q as Hfl by (apply fl_monotone; lra).
  assert (Qfloor (fl (x * 100) + (1 # 2)) <= Qfloor (fl (y * 100) + (1 # 2)))%Z
    as Hfloor by (apply Qfloor_resp_le; lra).
  rewrite Zle_Qle in Hfloor. lra.
Qed.

(** Two clock values at least 0.076 apart round to different hundredths. *)
Lemma round_to_cents_gap x y :
  (0 <= x)%Q → (x + (76 # 1000) <= y)%Q → (100 * y + 1 <= range)%Q →
  (round_to_cents x < round_to_cents y)%Q.
Proof using fl_near.
  intros Hx Hxy Hy. unfold round_to_cents, Math_round. rewrite !hundredth.
  destruct (fl_near (x * 100)) as [Hu1 Hu2]; [lra|lra|].
  destruct (fl_near (y * 100)) as [Hv1 Hv2]; [lra|lra|].
  set (u := fl (x * 100)) in *. set (v := fl (y * 100)) in *.
  pose proof (Qfloor_le (u + (1 # 2))) as Ha1.
  pose proof (Qlt_floor (u + (1 # 2))) as Ha2.
  pose proof (Qfloor_le (v + (1 # 2))) as Hb1.
  pose proof (Qlt_floor (v + (1 # 2))) as Hb2.
  set (a := Qfloor (u + (1 # 2))) in *. set (b := Qfloor (v + (1 # 2))) in *.
  rewrite inject_Z_plus in Ha2, Hb2.
  change (inject_Z 1) with 1%Q in Ha2, Hb2.
  assert (inject_Z a + 7 <= inject_Z b)%Q as Hab.
  { assert (a + 6 < b)%Z as Hlt.
    { rewrite Zlt_Qlt, inject_Z_plus. change (inject_Z 6) with 6%Q. lra. }
    change 7%Q with (inject_Z 7). rewrite <- inject_Z_plus, <- Zle_Qle. lia. }
  assert (0 <= inject_Z a)%Q as Ha0.
  { assert (-1 < a)%Z as Hlt.
    { rewrite Zlt_Qlt. change (inject_Z (-1)) with (-1)%Q. lra. }
    change 0%Q with (inject_Z 0). rewrite <- Zle_Qle. lia. }
  destruct (fl_near (inject_Z a * (1 # 100))) as [_ HA]; [lra|lra|].
  destruct (fl_near (inject_Z b * (1 # 100))) as [HB _]; [lra|lra|].
  lra.
Qed.

Lemma literal_near x :
  (0 <= x)%Q → (x <= 1)%Q → (1 <= range)%Q →
  (x - (1 # 1000) <= fl x)%Q ∧ (fl x <= x + (1 # 1000))%Q.
Proof using fl_near. intros ? ? ?. apply fl_near; lra. Qed.

(** The duration of a cue is within 0.077 and 0.124. *)
Lemma duration_bounds r :
  (0 <= r)%Q → (r < 1)%Q → (1 <= range)%Q →
  (77 # 1000 <= fl (fl (8 # 100) + fl (r * fl (4 # 100))))%Q
  ∧ (fl (fl (8 # 100) + fl (r * fl (4 # 100))) <= 124 # 1000)%Q.
Proof using fl_near.
  intros Hr0 Hr1 Hrange.
  destruct (literal_near (8 # 100)) as [H8a H8b]; [lra..|].
  destruct (literal_near (4 # 100)) as [H4a H4b]; [lra..|].
  set (c8 := fl (8 # 100)) in *. set (c4 := fl (4 # 100)) in *.
  assert (0 <= r * c4)%Q as Hp0 by (apply Qmult_le_0_compat; lra).
  assert (r * c4 <= 1 * c4)%Q as Hp1 by (apply Qmult_le_compat_r; lra).
  set (p := (r * c4)%Q) in *.
  destruct (literal_near p) as [Hfa Hfb]; [lra..|].
  set (fp := fl p) in *.
  destruct (literal_near (c8 + fp)) as [Hda Hdb]; [lra..|].
  lra.
Qed.

Lemma push_cue_clocked k st :
  (25 * nat_Q (S k) + 100 <= range)%Q →
  clocked k st → clocked (S k) (push_cue st).
Proof using fl_monotone fl_near draws_in_range.
  intros Hrange (Ht0 & Htk & Hlt & Hle & Ho).
  pose proof (nat_Q_S k) as HS. pose proof (nat_Q_nonneg k) as Hk0.
  destruct (draws_in_range (draws st)) as [Hr0 Hr1].
  destruct (duration_bounds (Math_random (draws st)) Hr0 Hr1) as [Hd0 Hd1]; [lra|].
  unfold clocked, timed, push_cue. cbn [cues currentTime].
  set (t := currentTime st) in *.
  set (d := fl (fl (8 # 100) + fl (Math_random (draws st) * fl (4 # 100)))%Q) in *.
  destruct (fl_near (t + d)) as [Hn0 Hn1]; [lra|lra|].
  set (t' := fl (t + d)) in *.
  split; [lra|]. split; [lra|]. split; [|split].
  - apply Forall_app. split; [exact Hlt|].
    apply Forall_singleton. cbn [start end_].
    apply round_to_cents_gap; lra.
  - apply Forall_app. split.
    + eapply Forall_impl; [exact Hle|]. intros c Hc. cbn beta in Hc |- *.
      eapply Qle_trans; [exact Hc|]. apply round_to_cents_mono. lra.
    + apply Forall_singleton. cbn [start]. apply round_to_cents_mono. lra.
  - apply ordered_snoc; [exact Ho|exact Hle].
Qed.

Lemma push_cues_clocked n k st :
  (25 * nat_Q (k + n) + 100 <= range)%Q →
  clocked k st → clocked (k + n) (Nat.iter n push_cue st).
Proof using fl_monotone fl_near draws_in_range.
  induction n as [|n IH]; intros Hrange H.
  - by rewrite Nat.add_0_r.
  - rewrite Nat.add_succ_r in *. cbn [Nat.iter nat_rect].
    apply push_cue_clocked; [exact Hrange|]. apply IH; [|exact H].
    pose proof (nat_Q_S (k + n)). lra.
Qed.

Lemma speak_word_clocked k st word :
  (25 * nat_Q (k + (length word + 1)) + 100 <= range)%Q →
  clocked k st → clocked (k + (length word + 1)) (speak_word st word).
Proof using fl_monotone fl_near draws_in_range.
  intros Hrange H.
  replace (k + (length word + 1))%nat with (S (k + length word)) in * by lia.
  pose proof (nat_Q_S (k + length word)) as HS.
  pose proof (nat_Q_nonneg (k + length word)) as Hk0.
  apply (push_cues_clocked (length word)) in H; [|lra].
  destruct H as (Ht0 & Htk & Hlt & Hle & Ho).
  unfold clocked, timed, speak_word. cbn [cues currentTime].
  set (t := currentTime (Nat.iter (length word) push_cue st)) in *.
  destruct (literal_near (1 # 10)) as [Hc0 Hc1]; [lra..|].
  set (c := fl (1 # 10)) in *.
  destruct (fl_near (t + c)) as [Hn0 Hn1]; [lra|lra|].
  split; [lra|]. split; [lra|]. split; [exact Hlt|]. split; [|exact Ho].
  eapply Forall_impl; [exact Hle|]. intros cue Hcue. cbn beta in Hcue |- *.
  eapply Qle_trans; [exact Hcue|]. apply round_to_cents_mono. lra.
Qed.

Lemma speak_words_clocked words k st :
  (25 * nat_Q (k + rounds words) + 100 <= range)%Q →
  clocked k st → clocked (k + rounds words) (fold_left speak_word words st).
Proof using fl_monotone fl_near draws_in_range.
  revert k st. induction words as [|word words IH]; intros k st Hrange H.
  - cbn [rounds foldr fold_left]. by rewrite Nat.add_0_r.
  - cbn [rounds foldr fold_left] in *. fold (rounds words) in *.
    replace (k + (length word + 1 + rounds words))%nat
      with (k + (length word + 1) + rounds words)%nat in * by lia.
    apply IH; [exact Hrange|]. apply speak_word_clocked; [|exact H].
    assert (nat_Q (k + (length word + 1))
            <= nat_Q (k + (length word + 1) + rounds words))%Q as Hle.
    { unfold nat_Q. rewrite <- Zle_Qle. lia. }
    lra.
Qed.

(** Under a rounding that is monotone and near enough on the range of the
    clock, the track [generateLipSync] returns for a text is timed. *)
Lemma lipsync_track_rounded text w :
  (25 * nat_Q (S (length text)) + 100 <= range)%Q →
  ∃ track w',
    generateLipSync text w = (inr track, w')
    ∧ (∀ c, c ∈ mouthCues track → (start c < end_ c)%Q)
    ∧ ordered (mouthCues track)
    ∧ (text = [] → mouthCues track = []).
Proof using fl_monotone fl_near draws_in_range.
  intros Hrange.
  eexists _, _. split; [apply generateLipSync_returns|]. cbn [mouthCues].
  assert (clocked (0 + rounds (split 32 text))
            (generateLipSync_from (random_calls w) text))
    as (_ & _ & Hlt & _ & Ho).
  { apply speak_words_clocked.
    - by rewrite rounds_split.
    - split; [cbn; lra|]. split; [by cbn|].
      split; [constructor|]. split; [constructor|].
      intros i j ci cj _ Hi. cbn [cues] in Hi. by rewrite lookup_nil in Hi. }
  split; [|split].
  - by apply Forall_forall.
  - exact Ho.
  - by intros ->.
Qed.

End Rounding.

(** ** Runs on which the provider always answers *)

Lemma alternates_from_app expected l l' :
  alternates_from expected (l ++ l')
  = alternates_from expected l
    && alternates_from (Nat.iter (length l) next_role expected) l'.
Proof.
  revert expected. induction l as [|t l IH]; intros expected; [done|].
  cbn [app alternates_from length].
  by rewrite IH, <- andb_assoc, Nat.iter_succ_r.
Qed.

Lemma alternates_from_drop n expected l :
  alternates_from expected l = true →
  alternates_from (Nat.iter n next_role expected) (drop n l) = true.
Proof.
  revert expected l. induction n as [|n IH]; intros expected l H.
  - by rewrite drop_0.
  - destruct l as [|t l]; [done|]. cbn [drop alternates_from] in *.
    apply andb_prop in H as [_ H]. apply IH in H.
    by rewrite Nat.iter_succ_r.
Qed.

Lemma next_role_even k : Nat.iter (2 * k) next_role user = user.
Proof.
  induction k as [|k IH]; [done|].
  replace (2 * S k)%nat with (S (S (2 * k))) by lia.
  by rewrite !Nat.iter_succ, IH.
Qed.

(** One more exchange, then the truncation, keeps a transcript paired. *)
Lemma paired_exchange h said aiContent :
  role said = user →
  paired h →
  paired (kept (h ++ [said]
                  ++ [ {| role := assistant; content := aiContent |} ])).
Proof.
  intros Hrole (Halt & [k Hlen] & _).
  set (h' := h ++ [said] ++ [ {| role := assistant; content := aiContent |} ]).
  assert (length h' = 2 * (k + 1) + 1)%nat as Hlen'.
  { unfold h'. rewrite !length_app. cbn [length]. lia. }
  assert (alternates h' = true) as Halt'.
  { unfold alternates, h' in *. destruct h as [|t h]; [cbn in Hlen; lia|].
    cbn [app drop] in *. rewrite drop_0 in *.
    rewrite alternates_from_app, Halt. cbn [length] in Hlen.
    replace (length h) with (2 * k)%nat by lia.
    rewrite next_role_even. cbn. by rewrite Hrole. }
  unfold paired, kept. destruct (21 <? length h')%nat eqn:Hlong.
  - apply Nat.ltb_lt in Hlong. rewrite length_truncated by done.
    split; [|split; [by exists 10%nat|lia]].
    unfold alternates, truncated. destruct h' as [|t rest] eqn:Hh'; [done|].
    cbn [take app drop]. rewrite take_0, drop_0.
    cbn [length app] in *. replace (S (length rest) - 20)%nat
      with (S (2 * (k - 9)))%nat by lia.
    cbn [drop]. unfold alternates in Halt'. cbn [drop] in Halt'.
    rewrite drop_0 in Halt'.
    rewrite <- (next_role_even (k - 9)) at 1.
    by apply alternates_from_drop.
  - apply Nat.ltb_ge in Hlong. split; [done|]. split; [eauto|lia].
Qed.

Lemma paired_fresh : paired [system_turn].
Proof. split; [done|]. split; [by exists 0%nat|cbn; lia]. Qed.

Section Answered.

Hypothesis always_answers : ∀ n r, is_Some (answer_content (fetch_answer n r)).

Lemma chat_all_paired env req w :
  all_paired w → all_paired (snd (chat env req w)).
Proof using always_answers.
  intros Hw.
  assert (∀ sid, paired (prior w sid)) as Hprior.
  { intros sid. unfold prior.
    destruct (conversationHistory w !! sid) as [h0|] eqn:E; [exact (Hw _ _ E)|].
    apply paired_fresh. }
  destruct (chat_cases env req w)
    as [[H _]|[(sid' & H & _)
              |(apiKey & message & sessionId & said & Henv & Hkey & Hbody & Hturn)]].
  { unfold all_paired. by rewrite H. }
  { intros sid h. rewrite H, lookup_insert. case_decide; [|apply Hw].
    intros [= <-]. apply Hprior. }
  destruct (chat_store apiKey env req w message sessionId said Hbody Hturn
              Hkey Henv) as [_ H].
  destruct (always_answers (length (fetch_calls w))
              (completion_request apiKey
                 (select_model (query_model req) (INTERVIEW_MODEL env))
                 (prior w (or_string sessionId (of_string "default"))
                  ++ [said]))) as [aiContent Hans].
  rewrite Hans, <- app_assoc in H.
  intros sid h. rewrite H, lookup_insert. case_decide; [|apply Hw].
  intros [= <-].
  apply paired_exchange; [exact (message_turn_role _ _ Hturn)|apply Hprior].
Qed.

Lemma run_all_paired env events w :
  all_paired w → all_paired (run env events w).
Proof using always_answers.
  revert w. induction events as [|ev events IH]; intros w Hw; [exact Hw|].
  apply IH. destruct ev as [req|b]; [by apply chat_all_paired|].
  intros sid h. cbn [after]. rewrite reset_registry.
  destruct b as [|message sessionId]; [apply Hw|].
  rewrite lookup_delete. case_decide; [done|]. apply Hw.
Qed.

(** When the provider answers every call, a transcript never holds more than
    21 turns after a request, and its turns after the first alternate
    between user and assistant. *)
Lemma answered_runs_are_paired env events sid h :
  transcript (run env events initial_world) sid = Some h →
  (length h ≤ 21)%nat ∧ alternates h = true.
Proof using always_answers.
  intros H. eapply run_all_paired in H as (? & _ & ?); [done|].
  intros sid' h'. cbn. by rewrite lookup_empty.
Qed.

End Answered.

(** ** How long a transcript gets *)

Lemma length_kept_min (h : list turn) : length (kept h) = Nat.min (length h) 21.
Proof.
  unfold kept. destruct (21 <? length h)%nat eqn:Hlen.
  - apply Nat.ltb_lt in Hlen. rewrite length_truncated; lia.
  - apply Nat.ltb_ge in Hlen. lia.
Qed.

Section Lengths.

Variables (apiKey : jsstring) (env : InterviewEnv) (sid : jsstring).
Hypothesis key_configured : GROQ_API_KEY env = Some apiKey.
Hypothesis key_accepted : truthy_string apiKey = true.

(** The length of the history of the session after one chat request. *)
Lemma chat_length req w :
  on_session sid req →
  ∃ sent,
    length (prior (snd (chat env req w)) sid)
    = match answer_content (fetch_answer (length (fetch_calls w)) sent) with
      | Some _ => Nat.min (length (prior w sid) + 2) 21
      | None => (length (prior w sid) + 1)%nat
      end.
Proof using key_configured key_accepted.
  intros (message & sessionId & said & Hbody & <- & Hturn).
  destruct (chat_store apiKey env req w message sessionId said Hbody Hturn
              key_accepted key_configured) as [_ H].
  exists (completion_request apiKey
            (select_model (query_model req) (INTERVIEW_MODEL env))
            (prior w (or_string sessionId (of_string "default")) ++ [said])).
  unfold prior at 1. rewrite H, lookup_insert_eq. cbn [default id].
  destruct (answer_content _).
  - rewrite length_kept_min, !length_app. cbn [length]. lia.
  - rewrite length_app. cbn [length]. lia.
Qed.

(** When the provider answers every call, [n] chat requests of a session
    that get as far as the push of the user turn leave its history [2 n]
    turns longer, capped at 21. *)
Lemma answered_chats_length reqs w :
  (∀ n r, is_Some (answer_content (fetch_answer n r))) →
  Forall (on_session sid) reqs →
  (length (prior w sid) ≤ 21)%nat →
  length (prior (run env (ChatRequest <$> reqs) w) sid)
  = Nat.min (length (prior w sid) + 2 * length reqs) 21.
Proof using key_configured key_accepted.
  intros Hans Hreqs. revert w.
  induction Hreqs as [|req reqs Hreq _ IH]; intros w Hw.
  - cbn [fmap list_fmap run fold_left length]. lia.
  - cbn [fmap list_fmap run fold_left length after].
    change (fold_left (after env) (ChatRequest <$> reqs) ?w0)
      with (run env (ChatRequest <$> reqs) w0).
    destruct (chat_length req w Hreq) as [sent Hstep].
    destruct (Hans (length (fetch_calls w)) sent) as [aiContent Hc].
    rewrite Hc in Hstep. rewrite IH, Hstep; lia.
Qed.

(** When the provider fails every call, each chat request of a session
    that gets as far as the push of the user turn leaves the history of the
    session one turn longer, without bound. *)
Lemma failed_chats_length reqs w :
  (∀ n r, answer_content (fetch_answer n r) = None) →
  Forall (on_session sid) reqs →
  length (prior (run env (ChatRequest <$> reqs) w) sid)
  = (length (prior w sid) + length reqs)%nat.
Proof using key_configured key_accepted.
  intros Hans Hreqs. revert w.
  induction Hreqs as [|req reqs Hreq _ IH]; intros w.
  - cbn [fmap list_fmap run fold_left length]. lia.
  - cbn [fmap list_fmap run fold_left length after].
    change (fold_left (after env) (ChatRequest <$> reqs) ?w0)
      with (run env (ChatRequest <$> reqs) w0).
    destruct (chat_length req w Hreq) as [sent Hstep].
    rewrite Hans in Hstep. rewrite IH, Hstep. lia.
Qed.

(** After 25 answered chat requests of one session on a fresh worker, the
    transcript of the session holds exactly 21 turns. *)
Lemma answered_25_chats reqs :
  (∀ n r, is_Some (answer_content (fetch_answer n r))) →
  Forall (on_session sid) reqs →
  length reqs = 25%nat →
  ∃ h, transcript (run env (ChatRequest <$> reqs) initial_world) sid = Some h
       ∧ length h = 21%nat.
Proof using key_configured key_accepted.
  intros Hans Hreqs Hlen.
  assert (length (prior initial_world sid) = 1%nat) as Hfresh.
  { unfold prior. cbn. by rewrite lookup_empty. }
  pose proof (answered_chats_length reqs initial_world Hans Hreqs) as H.
  rewrite Hlen, Hfresh in H. specialize (H ltac:(lia)). clear Hfresh.
  change (Nat.min (1 + 2 * 25) 21) with 21%nat in H.
  unfold prior, transcript in *.
  destruct (conversationHistory _ !! sid) as [h|]; cbn [default length] in H.
  - by exists h.
  - discriminate H.
Qed.

End Lengths.

(** ** How many cues a text gives *)

Lemma push_cues_count n st :
  length (cues (Nat.iter n push_cue st)) = (length (cues st) + n)%nat
  ∧ draws (Nat.iter n push_cue st) = (draws st + 2 * n)%nat.
Proof.
  induction n as [|n [IHc IHd]]; [cbn; lia|].
  cbn [Nat.iter nat_rect]. unfold push_cue at 1 3. cbn [cues draws].
  rewrite length_app. cbn [length].
  change (nat_rect _ st (λ _, push_cue) n) with (Nat.iter n push_cue st).
  lia.
Qed.

Lemma speak_words_count words st :
  length (cues (fold_left speak_word words st))
  = (length (cues st) + length (concat words))%nat
  ∧ draws (fold_left speak_word words st)
    = (draws st + 2 * length (concat words))%nat.
Proof.
  revert st. induction words as [|word words IH]; intros st.
  - cbn. lia.
  - cbn [fold_left concat]. rewrite length_app.
    destruct (IH (speak_word st word)) as [-> ->].
    unfold speak_word. cbn [cues draws].
    destruct (push_cues_count (length word) st) as [-> ->]. lia.
Qed.

(** The pieces of [text.split(" ")] hold the code units of the text other
    than the space, in order. *)
Lemma concat_split text : concat (split 32 text) = spoken_units text.
Proof.
  unfold spoken_units. induction text as [|c text IH]; [done|].
  cbn [split]. rewrite filter_cons. destruct (c =? 32) eqn:Hc.
  - apply N.eqb_eq in Hc. subst c. cbn [concat app].
    rewrite decide_False by (intros H; by apply H). exact IH.
  - apply N.eqb_neq in Hc. rewrite decide_True by done.
    destruct (split 32 text) as [|piece pieces]; cbn [concat app] in *;
      by rewrite <- IH.
Qed.

(** [generateLipSync] gives one cue for each code unit of the text that is
    not a space, calls [Math.random] twice for each cue, and changes
    nothing else of the worker. *)
Theorem lipsync_cue_count text w :
  ∃ track w',
    generateLipSync text w = (inr track, w')
    ∧ length (mouthCues track) = length (spoken_units text)
    ∧ random_calls w' = (random_calls w + 2 * length (spoken_units text))%nat
    ∧ conversationHistory w' = conversationHistory w
    ∧ fetch_calls w' = fetch_calls w.
Proof.
  eexists _, _. split; [apply generateLipSync_returns|].
  cbn [mouthCues with_random_calls random_calls conversationHistory fetch_calls].
  unfold generateLipSync_from.
  destruct (speak_words_count (split 32 text)
              {| cues := []; currentTime := 0%Q; draws := random_calls w |})
    as [-> ->].
  rewrite concat_split. cbn [cues draws length]. done.
Qed.

Lemma lipsync_length n text :
  length (cues (generateLipSync_from n text)) = length (spoken_units text).
Proof.
  unfold generateLipSync_from.
  destruct (speak_words_count (split 32 text)
              {| cues := []; currentTime := 0%Q; draws := n |}) as [-> _].
  by rewrite concat_split.
Qed.

(** ** More of the chat handler *)

(** The end of the [try] block throws a TypeError or answers with status
    200 and one message. *)
Lemma present_cases parsed used w :
  (∃ w', present parsed used w = (inl TypeError, w'))
  ∨ (∃ m w',
       present parsed used w
       = (inr {| resp_status := 200; resp_messages := [m];
                 resp_model := Some used; resp_error := None |}, w')).
Proof.
  unfold present, lift, generateLipSync_of, mbind, M_bind.
  destruct parsed as [| | | | |members]; cbn [get_property];
    try (left; eexists; reflexivity).
  destruct (lookup_member (of_string "text") members) as [[| | |shown| |]|];
    try (left; eexists; reflexivity).
  right. eexists _, _. reflexivity.
Qed.

(** A parsed object whose [text] is a string is presented with that text
    and with its expression and animation, or their defaults. *)
Lemma present_object members shown used w :
  lookup_member (of_string "text") members = Some (JString shown) →
  ∃ track w',
    present (JObject members) used w
    = (inr {| resp_status := 200;
              resp_messages :=
                [ {| text := shown; audio := []; lipsync := track;
                     facialExpression :=
                       or_default
                         (lookup_member (of_string "facialExpression") members)
                         (JString (of_string "default"));
                     animation :=
                       or_default
                         (lookup_member (of_string "animation") members)
                         (JString (of_string "Talking_1")) |} ];
              resp_model := Some used;
              resp_error := None |}, w')
    ∧ length (mouthCues track) = length (spoken_units shown).
Proof.
  intros Htext.
  unfold present, lift, generateLipSync_of, mbind, M_bind.
  cbn [get_property]. rewrite Htext.
  eexists _, _. split; [reflexivity|]. apply lipsync_length.
Qed.

(** No exception leaves the chat handler: it always answers, with one
    message, and either status 200 and no error or status 500, an error and
    no model. *)
Theorem chat_always_responds env req w :
  ∃ r,
    fst (chat env req w) = inr r
    ∧ length (resp_messages r) = 1%nat
    ∧ (resp_status r = 200 ∧ resp_error r = None
       ∨ resp_status r = 500 ∧ is_Some (resp_error r) ∧ resp_model r = None).
Proof.
  destruct (GROQ_API_KEY env) as [apiKey|] eqn:Henv.
  2: { unfold chat. rewrite Henv.
       destruct (not_configured_returns w) as (? & ? & -> & _).
       eexists. split; [reflexivity|]. split; [done|by left]. }
  destruct (truthy_string apiKey) eqn:Hkey.
  2: { unfold chat. rewrite Henv, Hkey.
       destruct (not_configured_returns w) as (? & ? & -> & _).
       eexists. split; [reflexivity|]. split; [done|by left]. }
  destruct (req_body req) as [|message sessionId] eqn:Hbody.
  { unfold chat. rewrite Henv, Hkey.
    unfold try_catch, chat_try. rewrite Hbody.
    erewrite bind_throws by reflexivity. caught TypeError w.
    eexists. split; [reflexivity|]. split; [done|]. right. eauto. }
  destruct (message_turn_cases message) as [Hturn|[said Hturn]].
  { destruct (chat_mistyped apiKey env req w message sessionId
                Henv Hkey Hbody Hturn) as (track & -> & _).
    eexists. split; [reflexivity|]. split; [done|]. right. eauto. }
  rewrite (chat_steps apiKey env req w message sessionId said Hbody Hturn
             Hkey Henv).
  destruct (fetch_answer _ _) as [e|status payload].
  { match goal with |- context [chat_catch ?e ?w0] => caught e w0 end.
    eexists. split; [reflexivity|]. split; [done|]. right. eauto. }
  destruct (ok status).
  2: { match goal with |- context [chat_catch ?e ?w0] => caught e w0 end.
       eexists. split; [reflexivity|]. split; [done|]. right. eauto. }
  destruct payload as [data|].
  2: { match goal with |- context [chat_catch ?e ?w0] => caught e w0 end.
       eexists. split; [reflexivity|]. split; [done|]. right. eauto. }
  match goal with |- context [try_catch (present ?p ?u) _ ?w0] =>
    destruct (present_cases p u w0) as [(w' & H)|(m & w' & H)]
  end; unfold try_catch; rewrite H.
  - caught TypeError w'.
    eexists. split; [reflexivity|]. split; [done|]. right. eauto.
  - eexists. split; [reflexivity|]. split; [done|by left].
Qed.

(** One chat request sends at most one request to the provider: there is
    no retry on any path. *)
Theorem chat_calls_provider_at_most_once env req w :
  fetch_calls (snd (chat env req w)) = fetch_calls w
  ∨ ∃ r, fetch_calls (snd (chat env req w)) = fetch_calls w ++ [r].
Proof.
  destruct (chat_cases env req w)
    as [[_ H]|[(sid & _ & H & _)
              |(apiKey & message & sessionId & said & Henv & Hkey & Hbody & Hturn)]];
    [by left|by left|].
  right.
  destruct (chat_store apiKey env req w message sessionId said Hbody Hturn
              Hkey Henv) as [H _].
  eauto.
Qed.

(** A chat request changes the transcript of no session but its own, the
    one [body.sessionId || "default"] names. *)
Theorem chat_touches_one_session env req w other :
  (∀ message sessionId,
     req_body req = BodyObject message sessionId →
     or_string sessionId (of_string "default") ≠ other) →
  transcript (snd (chat env req w)) other = transcript w other.
Proof.
  intros Hother. unfold transcript.
  destruct (chat_cases env req w)
    as [[H _]|[(sid & H & _ & message & sessionId & Hbody & ->)
              |(apiKey & message & sessionId & said & Henv & Hkey & Hbody & Hturn)]].
  { by rewrite H. }
  { rewrite H. apply lookup_insert_ne. exact (Hother message sessionId Hbody). }
  destruct (chat_store apiKey env req w message sessionId said Hbody Hturn
              Hkey Henv) as [_ H].
  rewrite H. apply lookup_insert_ne. exact (Hother message sessionId Hbody).
Qed.

(** A request body that is the JSON value null makes the handler answer 500
    with a TypeError before it touches the registry or the provider. *)
Theorem chat_null_body env req w apiKey :
  GROQ_API_KEY env = Some apiKey →
  apiKey ≠ [] →
  req_body req = BodyNull →
  ∃ track,
    fst (chat env req w)
    = inr {| resp_status := 500;
             resp_messages :=
               [ {| text := TROUBLE_TEXT; audio := []; lipsync := track;
                    facialExpression := JString (of_string "sad");
                    animation := JString (of_string "Idle") |} ];
             resp_model := None; resp_error := Some TypeError |}
    ∧ conversationHistory (snd (chat env req w)) = conversationHistory w
    ∧ fetch_calls (snd (chat env req w)) = fetch_calls w.
Proof.
  intros Henv Hkey Hbody. unfold chat. rewrite Henv.
  destruct apiKey as [|c apiKey]; [done|]. cbn [truthy_string].
  unfold try_catch, chat_try. rewrite Hbody.
  erewrite bind_throws by reflexivity.
  destruct (chat_catch_returns TypeError w) as (track & w' & -> & Hh & Hf).
  by exists track.
Qed.

(** A message that is a truthy value other than a string (a number that is
    not zero, [true], an array, an object) makes the handler answer 500 with
    a TypeError: [userMessage.trim] is not a function. By then the history
    of the session has been created when it was missing; no user turn is
    pushed, no other session changes and nothing goes to the provider. *)
Theorem mistyped_message_fails env req w apiKey v sessionId :
  GROQ_API_KEY env = Some apiKey →
  apiKey ≠ [] →
  req_body req = BodyObject (Some v) sessionId →
  (∀ m, v ≠ JString m) →
  truthy v = true →
  ∃ track,
    fst (chat env req w)
    = inr {| resp_status := 500;
             resp_messages :=
               [ {| text := TROUBLE_TEXT; audio := []; lipsync := track;
                    facialExpression := JString (of_string "sad");
                    animation := JString (of_string "Idle") |} ];
             resp_model := None; resp_error := Some TypeError |}
    ∧ transcript (snd (chat env req w)) (or_string sessionId (of_string "default"))
      = Some (prior w (or_string sessionId (of_string "default")))
    ∧ (∀ other, other ≠ or_string sessionId (of_string "default") →
                transcript (snd (chat env req w)) other = transcript w other)
    ∧ fetch_calls (snd (chat env req w)) = fetch_calls w.
Proof.
  intros Henv Hkey Hbody Hkind Htruthy.
  assert (truthy_string apiKey = true) as Hkey' by (by destruct apiKey).
  assert (message_turn (Some v) = inl TypeError) as Hturn.
  { unfold message_turn. destruct v as [| | |m| |]; try by rewrite Htruthy.
    by destruct (Hkind m). }
  destruct (chat_mistyped apiKey env req w (Some v) sessionId
              Henv Hkey' Hbody Hturn) as (track & Hanswer & Hstore & Hcalls).
  exists track. split; [exact Hanswer|]. unfold transcript. rewrite Hstore.
  split; [apply lookup_insert_eq|]. split; [|exact Hcalls].
  intros other Hother. by apply lookup_insert_ne.
Qed.

(** A credential that is the empty string counts as no credential. *)
Theorem chat_with_empty_key env req w :
  GROQ_API_KEY env = Some [] →
  ∃ track,
    fst (chat env req w)
    = inr {| resp_status := 200;
             resp_messages :=
               [ {| text := NOT_CONFIGURED_TEXT; audio := []; lipsync := track;
                    facialExpression := JString (of_string "sad");
                    animation := JString (of_string "Idle") |} ];
             resp_model := None; resp_error := None |}
    ∧ conversationHistory (snd (chat env req w)) = conversationHistory w
    ∧ fetch_calls (snd (chat env req w)) = fetch_calls w.
Proof.
  intros Henv. unfold chat. rewrite Henv. cbn [truthy_string].
  destruct (not_configured_returns w) as (track & w' & -> & Hh & Hf).
  by exists track.
Qed.

Section Answer.

Variables (apiKey : jsstring) (env : InterviewEnv) (req : request) (w : world).
Variables (message : option json) (sessionId : option jsstring).
Variable pushed : turn.
Variables (status : N) (data : completion).
Hypothesis key_configured : GROQ_API_KEY env = Some apiKey.
Hypothesis key_not_empty : apiKey ≠ [].
Hypothesis body_read : req_body req = BodyObject message sessionId.
Hypothesis turn_read : message_turn message = inr pushed.
Hypothesis answered :
  ∀ r, fetch_answer (length (fetch_calls w)) r = Response status (Some data).
Hypothesis status_ok : ok status = true.

Lemma key_accepted_here : truthy_string apiKey = true.
Proof using key_not_empty. clear - key_not_empty. by destruct apiKey. Qed.

(** When the reply of the provider parses to an object whose [text] is a
    string, the handler answers 200 with that text, with a track of one cue
    for each code unit of the text that is not a space, with the expression
    and the animation of the reply where they are truthy and "default" and
    "Talking_1" where they are not, and with the model the provider
    names. *)
Theorem structured_reply_is_presented members shown :
  JSON_parse (first_content data) = Some (JObject members) →
  lookup_member (of_string "text") members = Some (JString shown) →
  ∃ track,
    fst (chat env req w)
    = inr {| resp_status := 200;
             resp_messages :=
               [ {| text := shown; audio := []; lipsync := track;
                    facialExpression :=
                      or_default (lookup_member (of_string "facialExpression") members)
                        (JString (of_string "default"));
                    animation :=
                      or_default (lookup_member (of_string "animation") members)
                        (JString (of_string "Talking_1")) |} ];
             resp_model := Some (completion_model data);
             resp_error := None |}
    ∧ length (mouthCues track) = length (spoken_units shown).
Proof using All.
  intros Hparse Htext.
  rewrite (chat_steps apiKey env req w message sessionId pushed body_read
             turn_read key_accepted_here key_configured), answered, status_ok.
  unfold parse_reply. rewrite Hparse.
  match goal with |- context [try_catch _ _ ?w0] =>
    destruct (present_object members shown (completion_model data) w0 Htext)
      as (track & w' & Hpresent & Hlength)
  end.
  exists track. by rewrite (try_catch_returns _ _ _ _ _ Hpresent).
Qed.

(** When the reply of the provider parses to a value that is not an object
    whose [text] is a string, the handler answers 500 with a TypeError,
    after it has stored the reply as the assistant turn. *)
Theorem misshaped_reply_fails parsed :
  JSON_parse (first_content data) = Some parsed →
  (∀ members shown,
     parsed = JObject members →
     lookup_member (of_string "text") members ≠ Some (JString shown)) →
  ∃ track earlier,
    fst (chat env req w)
    = inr {| resp_status := 500;
             resp_messages :=
               [ {| text := TROUBLE_TEXT; audio := []; lipsync := track;
                    facialExpression := JString (of_string "sad");
                    animation := JString (of_string "Idle") |} ];
             resp_model := None; resp_error := Some TypeError |}
    ∧ transcript (snd (chat env req w)) (or_string sessionId (of_string "default"))
      = Some (earlier ++ [ pushed;
                           {| role := assistant; content := first_content data |} ]).
Proof using All.
  intros Hparse Hshape.
  destruct (chat_store apiKey env req w message sessionId pushed body_read
              turn_read key_accepted_here key_configured) as [_ Hstore].
  rewrite answered in Hstore. cbn [answer_content] in Hstore.
  rewrite status_ok in Hstore.
  unfold transcript. rewrite Hstore, lookup_insert_eq, <- app_assoc. cbn [app].
  destruct (kept_keeps_exchange
              (prior w (or_string sessionId (of_string "default")))
              pushed
              {| role := assistant; content := first_content data |})
    as [earlier ->].
  rewrite (chat_steps apiKey env req w message sessionId pushed body_read
             turn_read key_accepted_here key_configured), answered, status_ok.
  unfold parse_reply. rewrite Hparse.
  match goal with |- context [try_catch (present ?p ?u) _ ?w0] =>
    destruct (present_cases p u w0) as [(w' & H)|(m & w' & H)]
  end.
  - unfold try_catch. rewrite H.
    destruct (chat_catch_returns TypeError w') as (track & w'' & -> & _).
    by exists track, earlier.
  - exfalso. revert H. unfold present, lift, generateLipSync_of, mbind, M_bind.
    destruct parsed as [| | | | |members]; cbn [get_property]; try discriminate.
    destruct (lookup_member (of_string "text") members) as [[| | |shown| |]|] eqn:Htext;
      try discriminate.
    by destruct (Hshape members shown eq_refl).
Qed.

(** The assistant turn the handler stores holds the content of the reply as
    the provider sent it, right after the user turn of the request,
    whatever [JSON.parse] makes of it and whatever the handler answers. *)
Theorem answered_chat_stores_raw_reply :
  ∃ earlier,
    transcript (snd (chat env req w)) (or_string sessionId (of_string "default"))
    = Some (earlier ++ [ pushed;
                         {| role := assistant; content := first_content data |} ]).
Proof using All.
  destruct (chat_store apiKey env req w message sessionId pushed body_read
              turn_read key_accepted_here key_configured) as [_ H].
  rewrite answered in H. cbn [answer_content] in H. rewrite status_ok in H.
  unfold transcript. rewrite H, lookup_insert_eq, <- app_assoc. cbn [app].
  destruct (kept_keeps_exchange
              (prior w (or_string sessionId (of_string "default")))
              pushed
              {| role := assistant; content := first_content data |})
    as [earlier ->].
  by exists earlier.
Qed.

(** On a transcript of 21 turns an answered chat drops the oldest exchange:
    the first turn stays, the second and third go, and the new user and
    assistant turns come last. *)
Theorem full_transcript_slides h :
  transcript w (or_string sessionId (of_string "default")) = Some h →
  length h = 21%nat →
  transcript (snd (chat env req w)) (or_string sessionId (of_string "default"))
  = Some (take 1 h ++ drop 3 h
          ++ [ pushed;
               {| role := assistant; content := first_content data |} ]).
Proof using All.
  intros Hh Hlen.
  destruct (chat_store apiKey env req w message sessionId pushed body_read
              turn_read key_accepted_here key_configured) as [_ H].
  rewrite answered in H. cbn [answer_content] in H. rewrite status_ok in H.
  unfold transcript in *. rewrite H, lookup_insert_eq. f_equal.
  unfold prior. rewrite Hh. cbn [default from_option]. rewrite <- app_assoc.
  cbn [app id]. unfold kept, truncated. rewrite length_app, Hlen.
  cbn [length Nat.add Nat.ltb Nat.leb Nat.sub].
  rewrite take_app_le, drop_app_le by lia. done.
Qed.

End Answer.

(** When [fetch] rejects, or the body of a 2xx response is not JSON, the
    handler answers 500 with the exception it caught, after one request to
    the provider, and the transcript of the session keeps the user turn of
    the request with no assistant turn after it. *)
Theorem failed_fetch_is_reported env req w apiKey message sessionId pushed e :
  GROQ_API_KEY env = Some apiKey →
  apiKey ≠ [] →
  req_body req = BodyObject message sessionId →
  message_turn message = inr pushed →
  (∀ r, fetch_answer (length (fetch_calls w)) r = Rejected e)
  ∨ (e = SyntaxError
     ∧ ∃ status, ok status = true
         ∧ ∀ r, fetch_answer (length (fetch_calls w)) r = Response status None) →
  ∃ track sent,
    fst (chat env req w)
    = inr {| resp_status := 500;
             resp_messages :=
               [ {| text := TROUBLE_TEXT; audio := []; lipsync := track;
                    facialExpression := JString (of_string "sad");
                    animation := JString (of_string "Idle") |} ];
             resp_model := None; resp_error := Some e |}
    ∧ fetch_calls (snd (chat env req w)) = fetch_calls w ++ [sent]
    ∧ transcript (snd (chat env req w)) (or_string sessionId (of_string "default"))
      = Some (prior w (or_string sessionId (of_string "default"))
              ++ [pushed]).
Proof.
  intros Henv Hkey Hbody Hturn Hfails.
  assert (truthy_string apiKey = true) as Hkey' by (by destruct apiKey).
  destruct (chat_store apiKey env req w message sessionId pushed Hbody Hturn
              Hkey' Henv) as [Hcalls Hstore].
  unfold transcript. rewrite Hstore, lookup_insert_eq, Hcalls.
  rewrite (chat_steps apiKey env req w message sessionId pushed Hbody Hturn
             Hkey' Henv).
  destruct Hfails as [Hfails|(-> & status & Hok & Hfails)];
    rewrite !Hfails; cbn [answer_content]; rewrite ?Hok;
    match goal with |- context [chat_catch ?e ?w0] =>
      destruct (chat_catch_returns e w0) as (track & w' & -> & _)
    end;
    by eexists track, _.
Qed.

Lemma reset_route_returns message sessionId w :
  reset_route (BodyObject message sessionId) w
  = (inr {| success := true; reset_message := of_string "Conversation reset" |},
     with_history
       (delete (or_string sessionId (of_string "default")) (conversationHistory w))
       w).
Proof. reflexivity. Qed.

(** After a reset of its session a chat request that gets to the provider
    call (its message gives a user turn) starts from a fresh history: the
    provider is sent the system turn and the user turn and nothing of what
    the session held. *)
Theorem chat_after_reset_starts_fresh
    env req w apiKey message sessionId pushed ignored :
  GROQ_API_KEY env = Some apiKey →
  apiKey ≠ [] →
  req_body req = BodyObject message sessionId →
  message_turn message = inr pushed →
  ∃ sent,
    fetch_calls
      (snd (chat env req (snd (reset_route (BodyObject ignored sessionId) w))))
    = fetch_calls w ++ [sent]
    ∧ messages sent = [system_turn; pushed].
Proof.
  intros Henv Hkey Hbody Hturn.
  assert (truthy_string apiKey = true) as Hkey' by (by destruct apiKey).
  set (w1 := snd (reset_route (BodyObject ignored sessionId) w)).
  destruct (chat_store apiKey env req w1 message sessionId pushed Hbody Hturn
              Hkey' Henv) as [H _].
  eexists. split; [exact H|].
  cbn [messages completion_request]. unfold prior, w1.
  rewrite reset_route_returns. cbn [snd with_history conversationHistory].
  by rewrite lookup_delete_eq.
Qed.

(** A reset with a body that can be read reports success whether or not the
    session existed, leaves no transcript for the session, and changes
    neither another session nor the calls to the provider. *)
Theorem reset_route_removes_session message sessionId w :
  ∃ w',
    reset_route (BodyObject message sessionId) w
    = (inr {| success := true;
              reset_message := of_string "Conversation reset" |}, w')
    ∧ transcript w' (or_string sessionId (of_string "default")) = None
    ∧ (∀ other, other ≠ or_string sessionId (of_string "default") →
                transcript w' other = transcript w other)
    ∧ fetch_calls w' = fetch_calls w.
Proof.
  eexists. split; [apply reset_route_returns|]. unfold transcript.
  cbn [with_history conversationHistory fetch_calls].
  split; [apply lookup_delete_eq|]. split; [|done].
  intros other Hother. by apply lookup_delete_ne.
Qed.

(** Resetting twice leaves the worker as resetting once does, and a reset
    of a session that holds no transcript leaves the registry as it is. *)
Theorem reset_route_idempotent b w :
  snd (reset_route b (snd (reset_route b w))) = snd (reset_route b w)
  ∧ (∀ message sessionId,
       b = BodyObject message sessionId →
       transcript w (or_string sessionId (of_string "default")) = None →
       conversationHistory (snd (reset_route b w)) = conversationHistory w).
Proof.
  split.
  - destruct b as [|message sessionId]; [done|].
    rewrite !reset_route_returns. cbn [snd]. unfold with_history.
    cbn [conversationHistory random_calls fetch_calls].
    f_equal. apply delete_id, lookup_delete_eq.
  - intros message sessionId -> Hnone. rewrite reset_route_returns.
    cbn [snd with_history conversationHistory]. by apply delete_id.
Qed.

(** The model GET /models reports as current is the one POST /chat sends
    to the provider, on a request that gets to the provider call (its
    message gives a user turn) and names no model. *)
Theorem models_current_is_chat_model env req w apiKey message sessionId pushed :
  GROQ_API_KEY env = Some apiKey →
  apiKey ≠ [] →
  req_body req = BodyObject message sessionId →
  message_turn message = inr pushed →
  query_model req = None ∨ query_model req = Some [] →
  ∃ sent,
    fetch_calls (snd (chat env req w)) = fetch_calls w ++ [sent]
    ∧ model sent = current (models env).
Proof.
  intros Henv Hkey Hbody Hturn Hquery.
  assert (truthy_string apiKey = true) as Hkey' by (by destruct apiKey).
  destruct (chat_store apiKey env req w message sessionId pushed Hbody Hturn
              Hkey' Henv) as [H _].
  eexists. split; [exact H|].
  cbn [model completion_request current models]. unfold select_model.
  by destruct Hquery as [-> | ->].
Qed.

(** ** What the provider is sent along a run *)

Lemma select_model_not_empty queryModel configured :
  select_model queryModel configured ≠ [].
Proof.
  unfold select_model, or_string.
  destruct queryModel as [[|c q]|]; [|done|];
    by destruct configured as [[|c' k]|].
Qed.

Lemma chat_well_opened env req w :
  system_first w →
  Forall well_opened (fetch_calls w) →
  Forall well_opened (fetch_calls (snd (chat env req w))).
Proof.
  intros Hw Hcalls.
  destruct (chat_cases env req w)
    as [[_ H]|[(sid & _ & H & _)
              |(apiKey & message & sessionId & said & Henv & Hkey & Hbody & Hturn)]].
  { by rewrite H. }
  { by rewrite H. }
  destruct (chat_store apiKey env req w message sessionId said Hbody Hturn
              Hkey Henv) as [H _].
  rewrite H. apply Forall_app. split; [exact Hcalls|].
  apply Forall_singleton. split; [|split]; cbn [model messages completion_request].
  - apply select_model_not_empty.
  - apply head_app_keeps, prior_head, Hw.
  - rewrite last_snoc. cbn. f_equal. exact (message_turn_role _ _ Hturn).
Qed.

(** Along every sequence of chat and reset requests, every request the
    worker sends to the provider names a model that is not the empty
    string, starts with the system instruction and ends with a user turn. *)
Theorem provider_is_sent_system_first env events :
  Forall well_opened (fetch_calls (run env events initial_world)).
Proof.
  assert (∀ w, system_first w → Forall well_opened (fetch_calls w) →
               Forall well_opened (fetch_calls (run env events w))) as Hrun.
  { induction events as [|ev events IH]; intros w Hw Hcalls; [exact Hcalls|].
    cbn [run fold_left]. apply IH.
    - destruct ev; [by apply chat_system_first|by apply reset_system_first].
    - destruct ev as [req|b]; [by apply chat_well_opened|].
      cbn [after]. by destruct b. }
  apply Hrun; [|constructor].
  intros sid h. cbn. by rewrite lookup_empty.
Qed.

(** ** Cues that do not overlap *)


Lemma abutting_snoc track c :
  abutting track →
  Forall (λ c', (end_ c' <= start c)%Q) track →
  abutting (track ++ [c]).
Proof.
  intros Ha Hf i ci cj Hi Hj.
  destruct (decide (S i < length track)%nat) as [Hlt|Hge].
  - rewrite lookup_app_l in Hi, Hj by lia. eauto.
  - pose proof (lookup_lt_Some _ _ _ Hj) as Hlen.
    rewrite length_app in Hlen. cbn in Hlen.
    assert (S i = length track) as Hlast by lia.
    rewrite lookup_app_l in Hi by lia.
    rewrite lookup_app_r, Hlast, Nat.sub_diag in Hj by lia.
    injection Hj as <-.
    rewrite Forall_forall in Hf. apply Hf.
    by eapply list_elem_of_lookup_2.
Qed.

Section Flush.

Variable range : Q.
Hypothesis fl_monotone : ∀ x y, (x <= y)%Q → (fl x <= fl y)%Q.
Hypothesis fl_near :
  ∀ x, (0 <= x)%Q → (x <= range)%Q →
       (x - (1 # 1000) <= fl x)%Q ∧ (fl x <= x + (1 # 1000))%Q.
Hypothesis draws_in_range : ∀ n, (0 <= Math_random n)%Q ∧ (Math_random n < 1)%Q.

Lemma flush_later k st t :
  (currentTime st <= t)%Q → flush k st →
  Forall (λ c, (end_ c <= round_to_cents t)%Q) (cues st).
Proof using fl_monotone.
  intros Ht (_ & Hends & _).
  eapply Forall_impl; [exact Hends|]. intros c Hc. cbn beta in Hc |- *.
  eapply Qle_trans; [exact Hc|]. by apply round_to_cents_mono.
Qed.

Lemma push_cue_flush k st :
  (25 * nat_Q (S k) + 100 <= range)%Q →
  flush k st → flush (S k) (push_cue st).
Proof using fl_monotone fl_near draws_in_range.
  intros Hrange Hflush.
  pose proof Hflush as (Hclock & Hends & Hab).
  split; [by apply (push_cue_clocked range)|].
  pose proof Hclock as (Ht0 & Htk & _).
  pose proof (nat_Q_S k) as HS. pose proof (nat_Q_nonneg k) as Hk0.
  destruct (draws_in_range (draws st)) as [Hr0 Hr1].
  destruct (duration_bounds range fl_near (Math_random (draws st)) Hr0 Hr1)
    as [Hd0 Hd1]; [lra|].
  assert (currentTime (push_cue st) = fl (currentTime st
            + fl (fl (8 # 100) + fl (Math_random (draws st) * fl (4 # 100))))%Q)
    as Hnext by reflexivity.
  assert (cues (push_cue st)
          = cues st ++
              [ {| start := round_to_cents (currentTime st);
                   end_ := round_to_cents (currentTime (push_cue st));
                   value := element visemes
                              (Qfloor (fl (Math_random (S (draws st))
                                           * inject_Z (Z.of_nat (length visemes)))%Q)) |} ])
    as -> by reflexivity.
  set (t := currentTime st) in *.
  set (d := fl (fl (8 # 100) + fl (Math_random (draws st) * fl (4 # 100)))%Q) in *.
  destruct (fl_near (t + d)) as [Hn0 Hn1]; [lra|lra|].
  rewrite Hnext. set (t' := fl (t + d)) in *.
  split.
  - apply Forall_app. split.
    + apply (flush_later k); [fold t; lra|exact Hflush].
    + apply Forall_singleton. cbn [end_]. apply Qle_refl.
  - apply abutting_snoc; [exact Hab|exact Hends].
Qed.

Lemma push_cues_flush n k st :
  (25 * nat_Q (k + n) + 100 <= range)%Q →
  flush k st → flush (k + n) (Nat.iter n push_cue st).
Proof using fl_monotone fl_near draws_in_range.
  induction n as [|n IH]; intros Hrange H.
  - by rewrite Nat.add_0_r.
  - rewrite Nat.add_succ_r in *. cbn [Nat.iter nat_rect].
    apply push_cue_flush; [exact Hrange|]. apply IH; [|exact H].
    pose proof (nat_Q_S (k + n)). lra.
Qed.

Lemma speak_word_flush k st word :
  (25 * nat_Q (k + (length word + 1)) + 100 <= range)%Q →
  flush k st → flush (k + (length word + 1)) (speak_word st word).
Proof using fl_monotone fl_near draws_in_range.
  intros Hrange H.
  split; [apply (speak_word_clocked range); [done..|apply H]|].
  replace (k + (length word + 1))%nat with (S (k + length word)) in * by lia.
  pose proof (nat_Q_S (k + length word)) as HS.
  pose proof (nat_Q_nonneg (k + length word)) as Hk0.
  apply (push_cues_flush (length word)) in H; [|lra].
  pose proof H as ((Ht0 & Htk & _) & Hends & Hab).
  unfold speak_word. cbn [cues currentTime].
  set (t := currentTime (Nat.iter (length word) push_cue st)) in *.
  destruct (literal_near range fl_near (1 # 10)) as [Hc0 Hc1]; [lra..|].
  set (c := fl (1 # 10)) in *.
  destruct (fl_near (t + c)) as [Hn0 Hn1]; [lra|lra|].
  split; [|exact Hab].
  apply (flush_later (k + length word)); [fold t; lra|exact H].
Qed.

Lemma speak_words_flush words k st :
  (25 * nat_Q (k + rounds words) + 100 <= range)%Q →
  flush k st → flush (k + rounds words) (fold_left speak_word words st).
Proof using fl_monotone fl_near draws_in_range.
  revert k st. induction words as [|word words IH]; intros k st Hrange H.
  - cbn [rounds foldr fold_left]. by rewrite Nat.add_0_r.
  - cbn [rounds foldr fold_left] in *. fold (rounds words) in *.
    replace (k + (length word + 1 + rounds words))%nat
      with (k + (length word + 1) + rounds words)%nat in * by lia.
    apply IH; [exact Hrange|]. apply speak_word_flush; [|exact H].
    assert (nat_Q (k + (length word + 1))
            <= nat_Q (k + (length word + 1) + rounds words))%Q as Hle.
    { unfold nat_Q. rewrite <- Zle_Qle. lia. }
    lra.
Qed.

(** Under a rounding that keeps the order of its arguments and is off by at
    most a thousandth on the range of the clock, no cue of the track
    [generateLipSync] returns ends after the next cue starts. *)
Theorem lipsync_cues_do_not_overlap text w :
  (25 * nat_Q (S (length text)) + 100 <= range)%Q →
  ∃ track w',
    generateLipSync text w = (inr track, w')
    ∧ abutting (mouthCues track).
Proof using fl_monotone fl_near draws_in_range.
  intros Hrange.
  eexists _, _. split; [apply generateLipSync_returns|]. cbn [mouthCues].
  assert (flush (0 + rounds (split 32 text))
            (generateLipSync_from (random_calls w) text))
    as (_ & _ & Hab).
  { apply speak_words_flush.
    - by rewrite rounds_split.
    - split; [|split].
      + split; [cbn; lra|]. split; [by cbn|].
        split; [constructor|]. split; [constructor|].
        intros i j ci cj _ Hi. cbn [cues] in Hi. by rewrite lookup_nil in Hi.
      + constructor.
      + intros i ci cj Hi. cbn [cues] in Hi. by rewrite lookup_nil in Hi. }
  exact Hab.
Qed.

End Flush.

(** ** How long a cue lasts *)

Section Paced.

Variable range : Q.
Hypothesis fl_monotone : ∀ x y, (x <= y)%Q → (fl x <= fl y)%Q.
Hypothesis fl_near :
  ∀ x, (0 <= x)%Q → (x <= range)%Q →
       (x - (1 # 1000) <= fl x)%Q ∧ (fl x <= x + (1 # 1000))%Q.
Hypothesis draws_in_range : ∀ n, (0 <= Math_random n)%Q ∧ (Math_random n < 1)%Q.

(** The cue pushed at a clock within the range lasts 7 to 13 hundredths,
    up to the error of the rounding. *)
Lemma push_cue_steady k st :
  (25 * nat_Q (S k) + 100 <= range)%Q →
  clocked k st →
  Forall steady (cues st) → Forall steady (cues (push_cue st)).
Proof using fl_near draws_in_range.
  intros Hrange (Ht0 & Htk & _) Hst.
  pose proof (nat_Q_S k) as HS. pose proof (nat_Q_nonneg k) as Hk0.
  destruct (draws_in_range (draws st)) as [Hr0 Hr1].
  destruct (duration_bounds range fl_near (Math_random (draws st)) Hr0 Hr1)
    as [Hd0 Hd1]; [lra|].
  unfold push_cue. cbn [cues]. apply Forall_app. split; [exact Hst|].
  apply Forall_singleton. unfold steady. cbn [start end_].
  set (t := currentTime st) in *.
  set (d := fl (fl (8 # 100) + fl (Math_random (draws st) * fl (4 # 100)))%Q) in *.
  destruct (fl_near (t + d)) as [Hn0 Hn1]; [lra|lra|].
  set (t' := fl (t + d)) in *.
  unfold round_to_cents, Math_round. rewrite !hundredth.
  destruct (fl_near (t * 100)) as [Hu1 Hu2]; [lra|lra|].
  destruct (fl_near (t' * 100)) as [Hv1 Hv2]; [lra|lra|].
  set (u := fl (t * 100)) in *. set (v := fl (t' * 100)) in *.
  pose proof (Qfloor_le (u + (1 # 2))) as Ha1.
  pose proof (Qlt_floor (u + (1 # 2))) as Ha2.
  pose proof (Qfloor_le (v + (1 # 2))) as Hb1.
  pose proof (Qlt_floor (v + (1 # 2))) as Hb2.
  set (a := Qfloor (u + (1 # 2))) in *. set (b := Qfloor (v + (1 # 2))) in *.
  rewrite inject_Z_plus in Ha2, Hb2.
  change (inject_Z 1) with 1%Q in Ha2, Hb2.
  assert (0 <= inject_Z a)%Q as Ha0.
  { assert (-1 < a)%Z as Hlt.
    { rewrite Zlt_Qlt. change (inject_Z (-1)) with (-1)%Q. lra. }
    change 0%Q with (inject_Z 0). rewrite <- Zle_Qle. lia. }
  assert (inject_Z a + 7 <= inject_Z b)%Q as Hlow.
  { assert (a + 6 < b)%Z as Hlt.
    { rewrite Zlt_Qlt, inject_Z_plus. change (inject_Z 6) with 6%Q. lra. }
    change 7%Q with (inject_Z 7). rewrite <- inject_Z_plus, <- Zle_Qle. lia. }
  assert (inject_Z b <= inject_Z a + 13)%Q as Hhigh.
  { assert (b < a + 14)%Z as Hlt.
    { rewrite Zlt_Qlt, inject_Z_plus. change (inject_Z 14) with 14%Q. lra. }
    change 13%Q with (inject_Z 13). rewrite <- inject_Z_plus, <- Zle_Qle. lia. }
  destruct (fl_near (inject_Z a * (1 # 100))) as [HA1 HA2]; [lra|lra|].
  destruct (fl_near (inject_Z b * (1 # 100))) as [HB1 HB2]; [lra|lra|].
  lra.
Qed.

Lemma push_cues_steady n k st :
  (25 * nat_Q (k + n) + 100 <= range)%Q →
  clocked k st →
  Forall steady (cues st) → Forall steady (cues (Nat.iter n push_cue st)).
Proof using fl_monotone fl_near draws_in_range.
  induction n as [|n IH]; intros Hrange Hclock Hst; [exact Hst|].
  rewrite Nat.add_succ_r in Hrange. cbn [Nat.iter nat_rect].
  pose proof (nat_Q_S (k + n)) as HS.
  apply (push_cue_steady (k + n)); [exact Hrange| |].
  - apply (push_cues_clocked range); [done..|lra|exact Hclock].
  - apply IH; [lra|exact Hclock|exact Hst].
Qed.

Lemma speak_words_steady words k st :
  (25 * nat_Q (k + rounds words) + 100 <= range)%Q →
  clocked k st →
  Forall steady (cues st) →
  Forall steady (cues (fold_left speak_word words st)).
Proof using fl_monotone fl_near draws_in_range.
  revert k st. induction words as [|word words IH]; intros k st Hrange Hclock Hst;
    [exact Hst|].
  cbn [rounds foldr fold_left] in *. fold (rounds words) in *.
  replace (k + (length word + 1 + rounds words))%nat
    with (k + (length word + 1) + rounds words)%nat in * by lia.
  assert (nat_Q (k + length word) <= nat_Q (k + (length word + 1)))%Q as Hle1.
  { unfold nat_Q. rewrite <- Zle_Qle. lia. }
  assert (nat_Q (k + (length word + 1))
          <= nat_Q (k + (length word + 1) + rounds words))%Q as Hle2.
  { unfold nat_Q. rewrite <- Zle_Qle. lia. }
  apply (IH (k + (length word + 1))%nat); [exact Hrange| |].
  - apply (speak_word_clocked range); [done..|lra|exact Hclock].
  - unfold speak_word. cbn [cues].
    apply (push_cues_steady (length word) k); [lra|exact Hclock|exact Hst].
Qed.

(** Under a rounding that keeps the order of its arguments and is off by at
    most a thousandth on the range of the clock, every cue of the track
    [generateLipSync] returns lasts between 0.068 and 0.132 seconds. *)
Theorem cue_durations_under_rounding text w :
  (25 * nat_Q (S (length text)) + 100 <= range)%Q →
  ∃ track w',
    generateLipSync text w = (inr track, w')
    ∧ Forall steady (mouthCues track).
Proof using fl_monotone fl_near draws_in_range.
  intros Hrange.
  eexists _, _. split; [apply generateLipSync_returns|]. cbn [mouthCues].
  apply (speak_words_steady (split 32 text) 0).
  - by rewrite rounds_split.
  - split; [cbn; lra|]. split; [by cbn|].
    split; [constructor|]. split; [constructor|].
    intros i j ci cj _ Hi. cbn [cues] in Hi. by rewrite lookup_nil in Hi.
  - constructor.
Qed.

End Paced.

(** ** The window of a session *)

(** When the provider answers every call, chat requests of one session
    that get as far as the push of the user turn, at least one, leave the
    session a transcript that is [2 n] turns longer than the history it
    started from, capped at 21 turns. *)
Theorem answered_chats_fill_window apiKey env sid reqs w :
  GROQ_API_KEY env = Some apiKey →
  apiKey ≠ [] →
  (∀ n r, is_Some (answer_content (fetch_answer n r))) →
  Forall (on_session sid) reqs →
  reqs ≠ [] →
  (length (prior w sid) ≤ 21)%nat →
  ∃ h,
    transcript (run env (ChatRequest <$> reqs) w) sid = Some h
    ∧ length h = Nat.min (length (prior w sid) + 2 * length reqs) 21.
Proof.
  intros Henv Hkey Hans Hreqs Hne Hlen.
  assert (truthy_string apiKey = true) as Hkey' by (by destruct apiKey).
  pose proof (answered_chats_length apiKey env sid Henv Hkey' reqs w
                Hans Hreqs Hlen) as Hlength.
  destruct (@exists_last _ reqs Hne) as (reqs' & req & ->).
  apply Forall_app in Hreqs as [_ Hreq].
  pose proof (proj1 (Forall_singleton _ _) Hreq) as Hlast. clear Hreq.
  destruct Hlast as (message & sessionId & pushed & Hbody & <- & Hturn).
  revert Hlength. unfold run. rewrite fmap_app, fold_left_app.
  cbn [fmap list_fmap fold_left after].
  set (w1 := fold_left (after env) (ChatRequest <$> reqs') w).
  destruct (chat_store apiKey env req w1 message sessionId pushed Hbody Hturn
              Hkey' Henv) as [_ H].
  unfold transcript. unfold prior at 1. rewrite H, lookup_insert_eq.
  cbn [default id]. intros Hlength. eexists. split; [reflexivity|exact Hlength].
Qed.

End Handlers.

(** ** The viseme track in rounded arithmetic *)

(** C5. Whatever the text, of fewer than 2^32 code units, and the draws of
    [Math.random] (numbers of [0, 1)), every cue of the track
    [generateLipSync] returns starts before it ends and the start times do
    not decrease in the order of emission; the track of the empty text is
    empty. The arithmetic is rounded: it is enough that the rounding keeps
    the order of its arguments and that, up to 2^37, its relative error is
    at most 2^-53 and its absolute error at most 2^-1075 below the normal
    range, as for rounding to the nearest binary64 number. *)
Theorem lipsync_track_under_rounding (fl : Q → Q) (Math_random : nat → Q) text w :
  (∀ x y, (x <= y)%Q → (fl x <= fl y)%Q) →
  (∀ x, (0 <= x)%Q → (x <= inject_Z (2 ^ 37))%Q →
        (x - (x * (1 # 2 ^ 53) + (1 # 2 ^ 1075)) <= fl x)%Q
        ∧ (fl x <= x + (x * (1 # 2 ^ 53) + (1 # 2 ^ 1075)))%Q) →
  (∀ n, (0 <= Math_random n)%Q ∧ (Math_random n < 1)%Q) →
  (Z.of_nat (length text) < 2 ^ 32)%Z →
  ∃ track w',
    generateLipSync fl Math_random text w = (inr track, w')
    ∧ (∀ c, c ∈ mouthCues track → (start c < end_ c)%Q)
    ∧ ordered (mouthCues track)
    ∧ (text = [] → mouthCues track = []).
Proof.
  intros Hmono Hnear Hdraws Hlen.
  apply (lipsync_track_rounded fl Math_random (inject_Z (2 ^ 37))).
  - exact Hmono.
  - intros x Hx0 Hx1. destruct (Hnear x Hx0 Hx1) as [Ha Hb].
    change (inject_Z (2 ^ 37)) with (137438953472 # 1)%Q in Hx1.
    assert ((1 # 2 ^ 1075) <= (1 # 2 ^ 20))%Q as Htiny by (by vm_compute).
    set (tiny := (1 # 2 ^ 1075)%Q) in *.
    let c := eval vm_compute in (2 ^ 53)%positive in
      change (2 ^ 53)%positive with c in *.
    let c := eval vm_compute in (2 ^ 20)%positive in
      change (2 ^ 20)%positive with c in *.
    split; lra.
  - exact Hdraws.
  - unfold nat_Q. rewrite Nat2Z.inj_succ.
    change 25%Q with (inject_Z 25). change 100%Q with (inject_Z 100).
    rewrite <- inject_Z_mult, <- inject_Z_plus, <- Zle_Qle. lia.
Qed.

(** ** The theorems on sample inputs *)

(** One chat request, answered: the registry holds the transcript of the
    session, which starts with the system turn. *)
Lemma first_turn_on_sample :
  ∃ h,
    transcript
      (run exact sample_draws (completes structured_reply) json_parse sample_env
         [ChatRequest (say "hello" "s1")] initial_world)
      (of_string "s1") = Some h
    ∧ head h = Some system_turn.
Proof.
  eexists. split; [vm_compute; reflexivity|].
  apply (first_turn_is_system_instruction exact sample_draws
           (completes structured_reply) json_parse sample_env
           [ChatRequest (say "hello" "s1")] (of_string "s1")).
  vm_compute. reflexivity.
Defined.

Lemma chat_without_key_on_sample :
  GROQ_API_KEY sample_env_without_key = None
  ∧ ∃ track,
      fst (chat exact sample_draws unavailable json_parse sample_env_without_key
             (say "hi" "s1") initial_world)
      = inr {| resp_status := 200;
               resp_messages :=
                 [ {| text := NOT_CONFIGURED_TEXT; audio := []; lipsync := track;
                      facialExpression := JString (of_string "sad");
                      animation := JString (of_string "Idle") |} ];
               resp_model := None; resp_error := None |}.
Proof.
  split; [reflexivity|].
  apply (chat_without_key_degrades exact sample_draws unavailable json_parse
           sample_env_without_key (say "hi" "s1") initial_world).
  reflexivity.
Defined.

Lemma registry_kept_on_sample :
  GROQ_API_KEY sample_env_without_key = None
  ∧ conversationHistory
      (snd (chat exact sample_draws (completes structured_reply) json_parse
              sample_env_without_key (say "hi" "s1") initial_world))
    = conversationHistory initial_world
  ∧ fetch_calls
      (snd (chat exact sample_draws (completes structured_reply) json_parse
              sample_env_without_key (say "hi" "s1") initial_world))
    = fetch_calls initial_world.
Proof.
  split; [reflexivity|].
  apply (chat_without_key_keeps_registry exact sample_draws
           (completes structured_reply) json_parse
           sample_env_without_key (say "hi" "s1") initial_world).
  reflexivity.
Defined.

Lemma key_of_sample_env : of_string "gsk_test" ≠ [].
Proof. discriminate. Qed.

Lemma user_turn_on_sample :
  ∃ sent said,
    fetch_calls
      (snd (chat exact sample_draws (completes structured_reply) json_parse
              sample_env (say "I know graphs" "s1") initial_world))
    = fetch_calls initial_world ++ [sent]
    ∧ messages sent
      = prior initial_world
          (or_string (Some (of_string "s1")) (of_string "default"))
        ++ [ {| role := user; content := said |} ]
    ∧ conversationHistory
        (snd (chat exact sample_draws (completes structured_reply) json_parse
                sample_env (say "I know graphs" "s1") initial_world))
      = <[or_string (Some (of_string "s1")) (of_string "default") :=
            match answer_content
                    (completes structured_reply
                       (length (fetch_calls initial_world)) sent) with
            | Some aiContent =>
                kept (prior initial_world
                        (or_string (Some (of_string "s1")) (of_string "default"))
                      ++ [ {| role := user; content := said |};
                           {| role := assistant; content := aiContent |} ])
            | None =>
                prior initial_world
                  (or_string (Some (of_string "s1")) (of_string "default"))
                ++ [ {| role := user; content := said |} ]
            end]> (conversationHistory initial_world)
    ∧ (∃ earlier later,
         transcript
           (snd (chat exact sample_draws (completes structured_reply) json_parse
                   sample_env (say "I know graphs" "s1") initial_world))
           (or_string (Some (of_string "s1")) (of_string "default"))
         = Some (earlier ++ {| role := user; content := said |} :: later)
         ∧ (later = []
            ∨ ∃ aiContent,
                later = [ {| role := assistant; content := aiContent |} ]))
    ∧ (∀ m, Some (JString (of_string "I know graphs")) = Some (JString m) →
         (∃ c, c ∈ m ∧ is_trim_space c = false) → said = m)
    ∧ (Some (JString (of_string "I know graphs")) = None
       ∨ (∃ m, Some (JString (of_string "I know graphs")) = Some (JString m)
               ∧ ∀ c, c ∈ m → is_trim_space c = true)
       ∨ (∃ v, Some (JString (of_string "I know graphs")) = Some v
               ∧ truthy v = false) →
         said = GREETING)
    ∧ said ≠ [].
Proof.
  apply (user_turn_is_message_or_greeting exact sample_draws
           (completes structured_reply) json_parse (of_string "gsk_test")
           sample_env (say "I know graphs" "s1") initial_world
           (Some (JString (of_string "I know graphs"))) (Some (of_string "s1"))
           (user_turn (Some (of_string "I know graphs")))).
  - reflexivity.
  - exact key_of_sample_env.
  - reflexivity.
  - reflexivity.
Defined.

Lemma model_precedence_on_sample :
  ∃ sent,
    fetch_calls
      (snd (chat exact sample_draws (completes structured_reply) json_parse
              sample_env_with_model (say "hello" "s1") initial_world))
    = fetch_calls initial_world ++ [sent]
    ∧ (∀ q, query_model (say "hello" "s1") = Some q → q ≠ [] → model sent = q)
    ∧ (∀ c, query_model (say "hello" "s1") = None
            ∨ query_model (say "hello" "s1") = Some [] →
            INTERVIEW_MODEL sample_env_with_model = Some c → c ≠ [] →
            model sent = c)
    ∧ (query_model (say "hello" "s1") = None
       ∨ query_model (say "hello" "s1") = Some [] →
       INTERVIEW_MODEL sample_env_with_model = None
       ∨ INTERVIEW_MODEL sample_env_with_model = Some [] →
       model sent = DEFAULT_MODEL
       ∧ DEFAULT_MODEL = of_string "llama-3.3-70b-versatile").
Proof.
  apply (model_precedence exact sample_draws (completes structured_reply) json_parse
           (of_string "gsk_test") sample_env_with_model (say "hello" "s1")
           initial_world (Some (JString (of_string "hello")))
           (Some (of_string "s1")) (user_turn (Some (of_string "hello")))).
  - reflexivity.
  - exact key_of_sample_env.
  - reflexivity.
  - reflexivity.
Defined.

Lemma provider_failure_on_sample :
  ok 503 = false
  ∧ ∃ track sent,
      fst (chat exact sample_draws unavailable json_parse sample_env
             (say "hello" "s1") initial_world)
      = inr {| resp_status := 500;
               resp_messages :=
                 [ {| text := TROUBLE_TEXT; audio := []; lipsync := track;
                      facialExpression := JString (of_string "sad");
                      animation := JString (of_string "Idle") |} ];
               resp_model := None;
               resp_error :=
                 Some (Error (of_string "Groq API error: " ++ decimal 503)) |}
      ∧ fetch_calls
          (snd (chat exact sample_draws unavailable json_parse sample_env
                  (say "hello" "s1") initial_world))
        = fetch_calls initial_world ++ [sent].
Proof.
  split; [reflexivity|].
  apply (provider_failure_is_reported exact sample_draws unavailable json_parse
           (of_string "gsk_test") sample_env (say "hello" "s1") initial_world
           (Some (JString (of_string "hello"))) (Some (of_string "s1"))
           (user_turn (Some (of_string "hello")))
           eq_refl key_of_sample_env eq_refl eq_refl 503 None).
  - intros r. reflexivity.
  - reflexivity.
Defined.

Lemma plain_text_reply_on_sample :
  json_parse (of_string "Good job!") = None
  ∧ ∃ track,
      fst (chat exact sample_draws (completes (of_string "Good job!")) json_parse
             sample_env (say "hello" "s1") initial_world)
      = inr {| resp_status := 200;
               resp_messages :=
                 [ {| text := of_string "Good job!"; audio := []; lipsync := track;
                      facialExpression := JString (of_string "default");
                      animation := JString (of_string "Talking_1") |} ];
               resp_model := Some DEFAULT_MODEL;
               resp_error := None |}.
Proof.
  split; [vm_compute; reflexivity|].
  apply (unparseable_reply_is_wrapped exact sample_draws
           (completes (of_string "Good job!")) json_parse
           (of_string "gsk_test") sample_env (say "hello" "s1") initial_world
           (Some (JString (of_string "hello"))) (Some (of_string "s1"))
           (user_turn (Some (of_string "hello")))
           eq_refl key_of_sample_env eq_refl eq_refl 200
           (Some {| choices :=
                      [ {| choice_message := Some (Some (of_string "Good job!")) |} ];
                    completion_model := DEFAULT_MODEL |})
           (λ r, eq_refl)
           {| choices :=
                [ {| choice_message := Some (Some (of_string "Good job!")) |} ];
              completion_model := DEFAULT_MODEL |}).
  - reflexivity.
  - reflexivity.
  - vm_compute. reflexivity.
Defined.

Lemma sample_draws_in_range n :
  (0 <= sample_draws n)%Q ∧ (sample_draws n < 1)%Q.
Proof. split; [discriminate|reflexivity]. Qed.

(** The conditions on the rounding are met by the exact one. *)
Lemma lipsync_under_rounding_on_sample :
  ∃ track w',
    generateLipSync exact sample_draws (of_string "Good job!") initial_world
    = (inr track, w')
    ∧ (∀ c, c ∈ mouthCues track → (start c < end_ c)%Q)
    ∧ ordered (mouthCues track)
    ∧ (of_string "Good job!" = [] → mouthCues track = []).
Proof.
  apply (lipsync_track_under_rounding exact sample_draws
           (of_string "Good job!") initial_world).
  - by intros x y H.
  - intros x Hx _. unfold exact.
    assert (0 <= x * (1 # 2 ^ 53) + (1 # 2 ^ 1075))%Q; [|split; lra].
    apply Qle_trans with (0 + 0)%Q; [done|].
    apply Qplus_le_compat; [apply Qmult_le_0_compat|]; done.
  - exact sample_draws_in_range.
  - done.
Defined.

(** ** Where the handler departs from what is claimed of it *)

(** C4, as stated, fails on a message of one space: the message is supplied
    and not empty, and the user turn sent holds the greeting. *)
Lemma whitespace_message_is_replaced :
  of_string " " ≠ []
  ∧ map messages
      (fetch_calls
         (snd (chat exact sample_draws (completes structured_reply) json_parse
                 sample_env (say " " "s1") initial_world)))
    = [ [ system_turn; {| role := user; content := GREETING |} ] ]
  ∧ GREETING ≠ of_string " ".
Proof. split; [discriminate|]. split; [vm_compute; reflexivity|discriminate]. Qed.

(** C6, as stated, fails on [?model=]: the query parameter is present, and
    the model sent is the configured one. *)
Lemma empty_query_model_is_skipped :
  query_model (say_with_empty_model "hello" "s1") = Some []
  ∧ map model
      (fetch_calls
         (snd (chat exact sample_draws (completes structured_reply) json_parse
                 sample_env_with_model (say_with_empty_model "hello" "s1")
                 initial_world)))
    = [ of_string "gemma2-9b-it" ]
  ∧ of_string "gemma2-9b-it" ≠ [].
Proof. split; [reflexivity|]. split; [vm_compute; reflexivity|discriminate]. Qed.

(** C1. Ten answered chat requests of one session and an eleventh on which
    the provider answers 503: the request completes with the transcript at
    22 turns, one more than the claimed bound, since the [catch] clause
    neither removes the user turn nor truncates. *)
Theorem failed_call_exceeds_21_turns :
  length <$>
    transcript
      (run exact sample_draws (completes_first 10 structured_reply) json_parse
         sample_env (replicate 11 (ChatRequest (say "hello" "s1")))
         initial_world)
      (of_string "s1")
  = Some 22%nat.
Proof. vm_compute. reflexivity. Qed.

(** C9. A chat request on which the provider call succeeds with a reply
    that is a JSON object without [text]: the reply is not the structured
    object expected, and the handler does not wrap it as it wraps a reply
    that is not JSON. It stores the reply as the assistant turn, then
    [generateLipSync(undefined)] throws and the request ends with status 500
    and a TypeError. *)
Theorem misshaped_reply_fails_the_request :
  json_parse misshaped_reply
  = Some (JObject [ (of_string "reply", JString (of_string "Good job!")) ])
  ∧ (∃ r,
       fst (chat exact sample_draws (completes misshaped_reply) json_parse
              sample_env (say "hello" "s1") initial_world) = inr r
       ∧ resp_status r = 500
       ∧ resp_error r = Some TypeError)
  ∧ transcript
      (snd (chat exact sample_draws (completes misshaped_reply) json_parse
              sample_env (say "hello" "s1") initial_world))
      (of_string "s1")
    = Some [ system_turn;
             {| role := user; content := of_string "hello" |};
             {| role := assistant; content := misshaped_reply |} ].
Proof.
  split; [vm_compute; reflexivity|]. split.
  - eexists. split; [vm_compute; reflexivity|]. split; reflexivity.
  - vm_compute. reflexivity.
Qed.

(** C3. A chat request on which the provider answers 503, then one it
    completes, both of one session: the transcript holds two user turns in
    a row. *)
Theorem failed_call_breaks_alternation :
  (λ h, (role <$> h, alternates h)) <$>
    transcript
      (run exact sample_draws (unavailable_once structured_reply) json_parse
         sample_env
         [ChatRequest (say "hello" "s1"); ChatRequest (say "hello again" "s1")]
         initial_world)
      (of_string "s1")
  = Some ([system; user; user; assistant], false).
Proof. vm_compute. reflexivity. Qed.

(** ** The values of the cues in ideal arithmetic *)



(** ** The further properties on sample requests *)

Lemma exact_monotone x y : (x <= y)%Q → (exact x <= exact y)%Q.
Proof. by intros H. Qed.

Lemma exact_near (range x : Q) :
  (0 <= x)%Q → (x <= range)%Q →
  (x - (1 # 1000) <= exact x)%Q ∧ (exact x <= x + (1 # 1000))%Q.
Proof. intros _ _. unfold exact. split; lra. Qed.

Lemma say_on_session message sessionId :
  sessionId ≠ EmptyString →
  on_session (of_string sessionId) (say message sessionId).
Proof.
  intros Hs.
  exists (Some (JString (of_string message))), (Some (of_string sessionId)),
    (user_turn (Some (of_string message))).
  split; [reflexivity|]. split; [|reflexivity].
  destruct sessionId; [done|reflexivity].
Qed.

Lemma completes_answers aiContent n r :
  is_Some (answer_content (completes aiContent n r)).
Proof. by eexists. Qed.

Lemma chat_touches_one_session_on_sample :
  transcript
    (snd (chat exact sample_draws (completes structured_reply) json_parse
            sample_env (say "hello" "s1")
            (run exact sample_draws (completes structured_reply) json_parse
               sample_env [ChatRequest (say "hi" "s2")] initial_world)))
    (of_string "s2")
  = transcript
      (run exact sample_draws (completes structured_reply) json_parse
         sample_env [ChatRequest (say "hi" "s2")] initial_world)
      (of_string "s2").
Proof.
  apply (chat_touches_one_session exact sample_draws
           (completes structured_reply) json_parse sample_env (say "hello" "s1")).
  intros message sessionId [= <- <-]. vm_compute. discriminate.
Defined.

Lemma chat_null_body_on_sample :
  ∃ track,
    fst (chat exact sample_draws (completes structured_reply) json_parse
           sample_env {| req_body := BodyNull; query_model := None |}
           initial_world)
    = inr {| resp_status := 500;
             resp_messages :=
               [ {| text := TROUBLE_TEXT; audio := []; lipsync := track;
                    facialExpression := JString (of_string "sad");
                    animation := JString (of_string "Idle") |} ];
             resp_model := None; resp_error := Some TypeError |}
    ∧ conversationHistory
        (snd (chat exact sample_draws (completes structured_reply) json_parse
                sample_env {| req_body := BodyNull; query_model := None |}
                initial_world))
      = conversationHistory initial_world
    ∧ fetch_calls
        (snd (chat exact sample_draws (completes structured_reply) json_parse
                sample_env {| req_body := BodyNull; query_model := None |}
                initial_world))
      = fetch_calls initial_world.
Proof.
  apply (chat_null_body exact sample_draws (completes structured_reply)
           json_parse sample_env {| req_body := BodyNull; query_model := None |}
           initial_world (of_string "gsk_test") eq_refl key_of_sample_env eq_refl).
Defined.

Lemma chat_with_empty_key_on_sample :
  ∃ track,
    fst (chat exact sample_draws (completes structured_reply) json_parse
           {| GROQ_API_KEY := Some []; INTERVIEW_MODEL := None |}
           (say "hello" "s1") initial_world)
    = inr {| resp_status := 200;
             resp_messages :=
               [ {| text := NOT_CONFIGURED_TEXT; audio := []; lipsync := track;
                    facialExpression := JString (of_string "sad");
                    animation := JString (of_string "Idle") |} ];
             resp_model := None; resp_error := None |}
    ∧ conversationHistory
        (snd (chat exact sample_draws (completes structured_reply) json_parse
                {| GROQ_API_KEY := Some []; INTERVIEW_MODEL := None |}
                (say "hello" "s1") initial_world))
      = conversationHistory initial_world
    ∧ fetch_calls
        (snd (chat exact sample_draws (completes structured_reply) json_parse
                {| GROQ_API_KEY := Some []; INTERVIEW_MODEL := None |}
                (say "hello" "s1") initial_world))
      = fetch_calls initial_world.
Proof.
  apply (chat_with_empty_key exact sample_draws (completes structured_reply)
           json_parse {| GROQ_API_KEY := Some []; INTERVIEW_MODEL := None |}
           (say "hello" "s1") initial_world eq_refl).
Defined.

Lemma structured_reply_on_sample :
  ∃ track,
    fst (chat exact sample_draws (completes structured_reply) json_parse
           sample_env (say "hello" "s1") initial_world)
    = inr {| resp_status := 200;
             resp_messages :=
               [ {| text := of_string "Tell me about yourself."; audio := [];
                    lipsync := track;
                    facialExpression := JString (of_string "smile");
                    animation := JString (of_string "Talking_1") |} ];
             resp_model := Some DEFAULT_MODEL;
             resp_error := None |}
    ∧ length (mouthCues track)
      = length (spoken_units (of_string "Tell me about yourself.")).
Proof.
  apply (structured_reply_is_presented exact sample_draws
           (completes structured_reply) json_parse
           (of_string "gsk_test") sample_env (say "hello" "s1") initial_world
           (Some (JString (of_string "hello"))) (Some (of_string "s1"))
           (user_turn (Some (of_string "hello"))) 200
           {| choices :=
                [ {| choice_message := Some (Some structured_reply) |} ];
              completion_model := DEFAULT_MODEL |}
           eq_refl key_of_sample_env eq_refl eq_refl (λ r, eq_refl) eq_refl
           [ (of_string "text", JString (of_string "Tell me about yourself."));
             (of_string "facialExpression", JString (of_string "smile"));
             (of_string "animation", JString (of_string "Talking_1")) ]
           (of_string "Tell me about yourself.")).
  - vm_compute. reflexivity.
  - vm_compute. reflexivity.
Defined.

Lemma raw_reply_on_sample :
  ∃ earlier,
    transcript
      (snd (chat exact sample_draws (completes (of_string "Good job!"))
              json_parse sample_env (say "hello" "s1") initial_world))
      (of_string "s1")
    = Some (earlier ++ [ user_turn (Some (of_string "hello"));
                         {| role := assistant;
                            content := of_string "Good job!" |} ]).
Proof.
  apply (answered_chat_stores_raw_reply exact sample_draws
           (completes (of_string "Good job!")) json_parse
           (of_string "gsk_test") sample_env (say "hello" "s1") initial_world
           (Some (JString (of_string "hello"))) (Some (of_string "s1"))
           (user_turn (Some (of_string "hello"))) 200
           {| choices :=
                [ {| choice_message := Some (Some (of_string "Good job!")) |} ];
              completion_model := DEFAULT_MODEL |}
           eq_refl key_of_sample_env eq_refl eq_refl (λ r, eq_refl) eq_refl).
Defined.

Lemma full_transcript_on_sample :
  length
    (prior
       (run exact sample_draws (completes structured_reply) json_parse sample_env
          (replicate 10 (ChatRequest (say "hello" "s1"))) initial_world)
       (of_string "s1")) = 21%nat
  ∧ transcript
      (snd (chat exact sample_draws (completes structured_reply) json_parse
              sample_env (say "again" "s1")
              (run exact sample_draws (completes structured_reply) json_parse
                 sample_env (replicate 10 (ChatRequest (say "hello" "s1")))
                 initial_world)))
      (of_string "s1")
    = Some
        (take 1
           (prior
              (run exact sample_draws (completes structured_reply) json_parse
                 sample_env (replicate 10 (ChatRequest (say "hello" "s1")))
                 initial_world)
              (of_string "s1"))
         ++ drop 3
              (prior
                 (run exact sample_draws (completes structured_reply) json_parse
                    sample_env (replicate 10 (ChatRequest (say "hello" "s1")))
                    initial_world)
                 (of_string "s1"))
         ++ [ user_turn (Some (of_string "again"));
              {| role := assistant; content := structured_reply |} ]).
Proof.
  split; [vm_compute; reflexivity|].
  apply (full_transcript_slides exact sample_draws
           (completes structured_reply) json_parse
           (of_string "gsk_test") sample_env (say "again" "s1")
           (run exact sample_draws (completes structured_reply) json_parse
              sample_env (replicate 10 (ChatRequest (say "hello" "s1")))
              initial_world)
           (Some (JString (of_string "again"))) (Some (of_string "s1"))
           (user_turn (Some (of_string "again"))) 200
           {| choices :=
                [ {| choice_message := Some (Some structured_reply) |} ];
              completion_model := DEFAULT_MODEL |}
           eq_refl key_of_sample_env eq_refl eq_refl (λ r, eq_refl) eq_refl).
  - vm_compute. reflexivity.
  - vm_compute. reflexivity.
Defined.

Lemma chat_after_reset_on_sample :
  ∃ sent,
    fetch_calls
      (snd (chat exact sample_draws (completes structured_reply) json_parse
              sample_env (say "again" "s1")
              (snd (reset_route (BodyObject None (Some (of_string "s1")))
                      (run exact sample_draws (completes structured_reply)
                         json_parse sample_env
                         [ChatRequest (say "hello" "s1")] initial_world)))))
    = fetch_calls
        (run exact sample_draws (completes structured_reply) json_parse
           sample_env [ChatRequest (say "hello" "s1")] initial_world)
      ++ [sent]
    ∧ messages sent = [system_turn; user_turn (Some (of_string "again"))].
Proof.
  apply (chat_after_reset_starts_fresh exact sample_draws
           (completes structured_reply) json_parse sample_env
           (say "again" "s1")
           (run exact sample_draws (completes structured_reply) json_parse
              sample_env [ChatRequest (say "hello" "s1")] initial_world)
           (of_string "gsk_test") (Some (JString (of_string "again")))
           (Some (of_string "s1")) (user_turn (Some (of_string "again"))) None
           eq_refl key_of_sample_env eq_refl eq_refl).
Defined.

Lemma models_current_on_sample :
  ∃ sent,
    fetch_calls
      (snd (chat exact sample_draws (completes structured_reply) json_parse
              sample_env_with_model (say "hello" "s1") initial_world))
    = fetch_calls initial_world ++ [sent]
    ∧ model sent = current (models sample_env_with_model).
Proof.
  apply (models_current_is_chat_model exact sample_draws
           (completes structured_reply) json_parse sample_env_with_model
           (say "hello" "s1") initial_world (of_string "gsk_test")
           (Some (JString (of_string "hello"))) (Some (of_string "s1"))
           (user_turn (Some (of_string "hello")))
           eq_refl key_of_sample_env eq_refl eq_refl (or_introl eq_refl)).
Defined.

Lemma no_overlap_on_sample :
  ∃ track w',
    generateLipSync exact sample_draws (of_string "Good job!") initial_world
    = (inr track, w')
    ∧ abutting (mouthCues track).
Proof.
  apply (lipsync_cues_do_not_overlap exact sample_draws 1000%Q
           exact_monotone (exact_near 1000%Q) sample_draws_in_range
           (of_string "Good job!") initial_world).
  vm_compute. discriminate.
Defined.

Lemma cue_durations_on_sample :
  ∃ track w',
    generateLipSync exact sample_draws (of_string "Good job!") initial_world
    = (inr track, w')
    ∧ Forall steady (mouthCues track).
Proof.
  apply (cue_durations_under_rounding exact sample_draws 1000%Q
           exact_monotone (exact_near 1000%Q) sample_draws_in_range
           (of_string "Good job!") initial_world).
  vm_compute. discriminate.
Defined.


Lemma answered_runs_on_sample :
  (length
     (prior
        (run exact sample_draws (completes structured_reply) json_parse
           sample_env (replicate 12 (ChatRequest (say "hello" "s1")))
           initial_world)
        (of_string "s1")) ≤ 21)%nat
  ∧ alternates
      (prior
         (run exact sample_draws (completes structured_reply) json_parse
            sample_env (replicate 12 (ChatRequest (say "hello" "s1")))
            initial_world)
         (of_string "s1")) = true.
Proof.
  apply (answered_runs_are_paired exact sample_draws
           (completes structured_reply) json_parse
           (completes_answers structured_reply) sample_env
           (replicate 12 (ChatRequest (say "hello" "s1"))) (of_string "s1")).
  vm_compute. reflexivity.
Defined.

Lemma failed_chats_on_sample :
  length
    (prior
       (run exact sample_draws unavailable json_parse sample_env
          (ChatRequest <$> replicate 3 (say "hello" "s1")) initial_world)
       (of_string "s1"))
  = (length (prior initial_world (of_string "s1"))
     + length (replicate 3 (say "hello" "s1")))%nat.
Proof.
  apply (failed_chats_length exact sample_draws unavailable json_parse
           (of_string "gsk_test") sample_env (of_string "s1") eq_refl eq_refl
           (replicate 3 (say "hello" "s1")) initial_world (λ n r, eq_refl)).
  apply Forall_replicate, say_on_session. discriminate.
Defined.

Lemma answered_chats_on_sample :
  ∃ h,
    transcript
      (run exact sample_draws (completes structured_reply) json_parse sample_env
         (ChatRequest <$> replicate 12 (say "hello" "s1")) initial_world)
      (of_string "s1") = Some h
    ∧ length h
      = Nat.min (length (prior initial_world (of_string "s1"))
                 + 2 * length (replicate 12 (say "hello" "s1"))) 21.
Proof.
  apply (answered_chats_fill_window exact sample_draws
           (completes structured_reply) json_parse
           (of_string "gsk_test") sample_env (of_string "s1")
           (replicate 12 (say "hello" "s1")) initial_world
           eq_refl key_of_sample_env (completes_answers structured_reply)).
  - apply Forall_replicate, say_on_session. discriminate.
  - discriminate.
  - vm_compute. lia.
Defined.

Lemma misshaped_reply_on_sample :
  ∃ track earlier,
    fst (chat exact sample_draws (completes misshaped_reply) json_parse
           sample_env (say "hello" "s1") initial_world)
    = inr {| resp_status := 500;
             resp_messages :=
               [ {| text := TROUBLE_TEXT; audio := []; lipsync := track;
                    facialExpression := JString (of_string "sad");
                    animation := JString (of_string "Idle") |} ];
             resp_model := None; resp_error := Some TypeError |}
    ∧ transcript
        (snd (chat exact sample_draws (completes misshaped_reply) json_parse
                sample_env (say "hello" "s1") initial_world))
        (of_string "s1")
      = Some (earlier ++ [ user_turn (Some (of_string "hello"));
                           {| role := assistant; content := misshaped_reply |} ]).
Proof.
  apply (misshaped_reply_fails exact sample_draws
           (completes misshaped_reply) json_parse
           (of_string "gsk_test") sample_env (say "hello" "s1") initial_world
           (Some (JString (of_string "hello"))) (Some (of_string "s1"))
           (user_turn (Some (of_string "hello"))) 200
           {| choices :=
                [ {| choice_message := Some (Some misshaped_reply) |} ];
              completion_model := DEFAULT_MODEL |}
           eq_refl key_of_sample_env eq_refl eq_refl (λ r, eq_refl) eq_refl
           (JObject [ (of_string "reply", JString (of_string "Good job!")) ])).
  - vm_compute. reflexivity.
  - intros members shown [= <-]. vm_compute. discriminate.
Defined.

Lemma failed_fetch_on_sample :
  ∃ track sent,
    fst (chat exact sample_draws unreachable json_parse sample_env
           (say "hello" "s1") initial_world)
    = inr {| resp_status := 500;
             resp_messages :=
               [ {| text := TROUBLE_TEXT; audio := []; lipsync := track;
                    facialExpression := JString (of_string "sad");
                    animation := JString (of_string "Idle") |} ];
             resp_model := None;
             resp_error := Some (Rejection (of_string "fetch failed")) |}
    ∧ fetch_calls
        (snd (chat exact sample_draws unreachable json_parse sample_env
                (say "hello" "s1") initial_world))
      = fetch_calls initial_world ++ [sent]
    ∧ transcript
        (snd (chat exact sample_draws unreachable json_parse sample_env
                (say "hello" "s1") initial_world))
        (of_string "s1")
      = Some (prior initial_world (of_string "s1")
              ++ [user_turn (Some (of_string "hello"))]).
Proof.
  apply (failed_fetch_is_reported exact sample_draws unreachable json_parse
           sample_env (say "hello" "s1") initial_world (of_string "gsk_test")
           (Some (JString (of_string "hello"))) (Some (of_string "s1"))
           (user_turn (Some (of_string "hello")))
           (Rejection (of_string "fetch failed"))
           eq_refl key_of_sample_env eq_refl eq_refl (or_introl (λ r, eq_refl))).
Defined.

Lemma reset_of_absent_session_on_sample :
  conversationHistory
    (snd (reset_route (BodyObject None (Some (of_string "s1"))) initial_world))
  = conversationHistory initial_world.
Proof.
  apply (proj2 (reset_route_idempotent
                  (BodyObject None (Some (of_string "s1"))) initial_world)
           None (Some (of_string "s1")) eq_refl).
  vm_compute. reflexivity.
Defined.

Lemma mistyped_message_on_sample :
  ∃ track,
    fst (chat exact sample_draws (completes structured_reply) json_parse
           sample_env
           {| req_body := BodyObject (Some (JNumber 42)) (Some (of_string "s1"));
              query_model := None |}
           initial_world)
    = inr {| resp_status := 500;
             resp_messages :=
               [ {| text := TROUBLE_TEXT; audio := []; lipsync := track;
                    facialExpression := JString (of_string "sad");
                    animation := JString (of_string "Idle") |} ];
             resp_model := None; resp_error := Some TypeError |}
    ∧ transcript
        (snd (chat exact sample_draws (completes structured_reply) json_parse
                sample_env
                {| req_body :=
                     BodyObject (Some (JNumber 42)) (Some (of_string "s1"));
                   query_model := None |}
                initial_world))
        (or_string (Some (of_string "s1")) (of_string "default"))
      = Some (prior initial_world
                (or_string (Some (of_string "s1")) (of_string "default")))
    ∧ (∀ other,
         other ≠ or_string (Some (of_string "s1")) (of_string "default") →
         transcript
           (snd (chat exact sample_draws (completes structured_reply) json_parse
                   sample_env
                   {| req_body :=
                        BodyObject (Some (JNumber 42)) (Some (of_string "s1"));
                      query_model := None |}
                   initial_world))
           other
         = transcript initial_world other)
    ∧ fetch_calls
        (snd (chat exact sample_draws (completes structured_reply) json_parse
                sample_env
                {| req_body :=
                     BodyObject (Some (JNumber 42)) (Some (of_string "s1"));
                   query_model := None |}
                initial_world))
      = fetch_calls initial_world.
Proof.
  apply (mistyped_message_fails exact sample_draws (completes structured_reply)
           json_parse sample_env
           {| req_body := BodyObject (Some (JNumber 42)) (Some (of_string "s1"));
              query_model := None |}
           initial_world (of_string "gsk_test") (JNumber 42)
           (Some (of_string "s1")) eq_refl key_of_sample_env eq_refl).
  - intros m. discriminate.
  - reflexivity.
Defined.
